(** * Greenlight policy optimizer: present value, policy scores, resource solver

    A shallow embedding of [app.py].  Python floats are idealised as exact
    rationals ([Qc]); the float value NaN (pandas' marker for a missing
    entry) is a separate constructor, and Python exceptions are results of
    an error monad.  Rounding, overflow and infinities are outside the
    model.  The sorting routine of [sort_values] is a parameter: the code
    does not fix the order of rows with equal keys, and no statement
    depends on it. *)

From Stdlib Require Import QArith Qcanon.
From stdpp Require Import base option list sorting strings gmap.

Local Open Scope Qc_scope.

(** ** Python values and exceptions *)

(** A table cell or an operand: a float, NaN, or a text (str) object. *)
Inductive value :=
  | Float (x : Qc)
  | NaN
  | Str (s : string).

(** The exceptions of the model; [InvalidReference] stands for a name
    bound to no object, which Python itself cannot produce. *)
Inductive exn :=
  | ZeroDivisionError
  | TypeError
  | IndexError
  | KeyError
  | ValueError
  | InvalidReference.

Inductive result (A : Type) :=
  | Ok (a : A)
  | Raise (e : exn).
Arguments Ok {A} a.
Arguments Raise {A} e.

#[global] Instance result_ret : MRet result := fun _ a => Ok a.
#[global] Instance result_bind : MBind result := fun _ _ f m =>
  match m with
  | Ok a => f a
  | Raise e => Raise e
  end.

#[global] Instance value_eq_dec : EqDecision value.
Proof. solve_decision. Defined.
#[global] Instance exn_eq_dec : EqDecision exn.
Proof. solve_decision. Defined.
#[global] Instance result_eq_dec `{EqDecision A} : EqDecision (result A).
Proof. solve_decision. Defined.

(** Integer and fraction literals. *)
Definition num (n : Z) : Qc := Q2Qc (inject_Z n).
Definition frac (n : Z) (d : positive) : Qc := Q2Qc (n # d).

(** [x + y]: NaN propagates, text concatenates with text only. *)
Definition py_add (x y : value) : result value :=
  match x, y with
  | Float a, Float b => Ok (Float (a + b))
  | Str a, Str b => Ok (Str (a +:+ b))
  | Str _, _ | _, Str _ => Raise TypeError
  | _, _ => Ok NaN
  end.

(** [x * y] on floats; a text operand with a float raises. *)
Definition py_mul (x y : value) : result value :=
  match x, y with
  | Float a, Float b => Ok (Float (a * b))
  | Str _, _ | _, Str _ => Raise TypeError
  | _, _ => Ok NaN
  end.

(** [x / y]: the operand types are checked first, then a zero divisor
    raises (also under a NaN numerator), then NaN propagates. *)
Definition py_truediv (x y : value) : result value :=
  match x, y with
  | Str _, _ | _, Str _ => Raise TypeError
  | _, Float b =>
      if decide (b = 0) then Raise ZeroDivisionError
      else match x with
           | Float a => Ok (Float (a / b))
           | _ => Ok NaN
           end
  | _, _ => Ok NaN
  end.

(** [B[i]] *)
Definition py_index (B : list value) (i : nat) : result value :=
  match B !! i with
  | Some b => Ok b
  | None => Raise IndexError
  end.

(** [range(n)] *)
Definition range (n : nat) : list nat := seq 0 n.

(** ** pv_stream *)

(** [sum(B[i] / ((1 + r) ** i) for i in range(len(B)))]: the built-in [sum]
    starts from 0 and pulls one term at a time from the generator, so each
    term is computed and then added before the next one is looked at. *)
Definition pv_step (B : list value) (r : Qc) (acc : result value) (i : nat)
    : result value :=
  a ← acc;
  b ← py_index B i;
  t ← py_truediv b (Float ((1 + r) ^ i));
  py_add a t.

Definition pv_stream (B : list value) (r : Qc) : result value :=
  foldl (pv_step B r) (Ok (Float 0)) (range (length B)).

(** The present value as the specification writes it:
    [PV = Σ_{i=0..n} B[i] / (1+r)^i]. *)
Fixpoint sigma (n : nat) (f : nat → Qc) : Qc :=
  match n with
  | O => 0
  | S k => sigma k f + f k
  end.

Definition present_value (B : list Qc) (r : Qc) : Qc :=
  sigma (length B) (fun i => nth i B 0 / (1 + r) ^ i).

(** ** Tables *)

(** One row of the session table (a PolicyOutcomeRow).  Policy and Outcome
    hold text; the numeric columns hold whatever was entered.  The column
    [Weighted_PV_TNB] does not exist until [compute_policy_scores] adds it
    to its working copy: [None] is an absent column. *)
Record Row := mkRow {
  Policy : string;
  Outcome : string;
  Prob : value;
  PV_TNB : value;
  B0 : value;
  B1 : value;
  B2 : value;
  B3 : value;
  Weighted_PV_TNB : option value
}.

#[global] Instance Row_eq_dec : EqDecision Row.
Proof. solve_decision. Defined.

(** The columns the function reads and assigns by name. *)
Inductive column :=
  | cProb | cPV_TNB | cB0 | cB1 | cB2 | cB3 | cWeighted_PV_TNB.

(** [row[c]] *)
Definition row_get (c : column) (row : Row) : result value :=
  match c with
  | cProb => Ok (Prob row)
  | cPV_TNB => Ok (PV_TNB row)
  | cB0 => Ok (B0 row)
  | cB1 => Ok (B1 row)
  | cB2 => Ok (B2 row)
  | cB3 => Ok (B3 row)
  | cWeighted_PV_TNB =>
      match Weighted_PV_TNB row with
      | Some v => Ok v
      | None => Raise KeyError
      end
  end.

Definition row_set (c : column) (row : Row) (v : value) : Row :=
  let '(mkRow p o pr pv b0 b1 b2 b3 w) := row in
  match c with
  | cProb => mkRow p o v pv b0 b1 b2 b3 w
  | cPV_TNB => mkRow p o pr v b0 b1 b2 b3 w
  | cB0 => mkRow p o pr pv v b1 b2 b3 w
  | cB1 => mkRow p o pr pv b0 v b2 b3 w
  | cB2 => mkRow p o pr pv b0 b1 v b3 w
  | cB3 => mkRow p o pr pv b0 b1 b2 v w
  | cWeighted_PV_TNB => mkRow p o pr pv b0 b1 b2 b3 (Some v)
  end.

(** A DataFrame of this schema is the list of its rows, in index order. *)
Definition DataFrame := list Row.

(** One row of the scores table (a PolicyScore). *)
Record Score := mkScore {
  score_Policy : string;
  PV_ETNB : value;
  Prob_Sum : value;
  Rank : nat
}.

#[global] Instance Score_eq_dec : EqDecision Score.
Proof. solve_decision. Defined.

(** ** The object store *)

(** DataFrames are mutable objects: a Python name holds a reference. *)
Definition loc := positive.
Abbreviation store := (gmap loc DataFrame).

(** Computations that read and write the store and may raise.  What was
    written before an exception stays written. *)
Definition M (A : Type) : Type := store → result A * store.

#[global] Instance M_ret : MRet M := fun _ a σ => (Ok a, σ).
#[global] Instance M_bind : MBind M := fun _ _ f m σ =>
  match m σ with
  | (Ok a, σ') => f a σ'
  | (Raise e, σ') => (Raise e, σ')
  end.

(** A pure computation inside [M]. *)
Definition lift {A} (m : result A) : M A := fun σ => (m, σ).

Definition read (l : loc) : M DataFrame := fun σ =>
  match σ !! l with
  | Some t => (Ok t, σ)
  | None => (Raise InvalidReference, σ)
  end.

Definition write (l : loc) (t : DataFrame) : M unit := fun σ =>
  (Ok tt, <[l := t]> σ).

(** [df.copy()]: a new object with the same rows. *)
Definition copy (df : loc) : M loc := fun σ =>
  match σ !! df with
  | Some t => let l := fresh (dom σ) in (Ok l, <[l := t]> σ)
  | None => (Raise InvalidReference, σ)
  end.

(** Monadic map and loop over a list, left to right. *)
Fixpoint traverse {A B} (f : A → result B) (l : list A) : result (list B) :=
  match l with
  | [] => Ok []
  | x :: l' => y ← f x; ys ← traverse f l'; Ok (y :: ys)
  end.

Fixpoint for_each {A} (l : list A) (body : A → M unit) : M unit :=
  match l with
  | [] => mret tt
  | x :: l' => body x ;; for_each l' body
  end.

(** [frame[c]] *)
Definition getitem (l : loc) (c : column) : M (list value) :=
  t ← read l; lift (traverse (row_get c) t).

(** [frame[c] = col]: the column must be as long as the frame. *)
Definition setitem (l : loc) (c : column) (col : list value) : M unit :=
  t ← read l;
  if decide (length col = length t)
  then write l (zip_with (row_set c) t col)
  else lift (Raise ValueError).

(** [frame.apply(f, axis=1)] *)
Definition apply_rows (l : loc) (f : Row → result value) : M (list value) :=
  t ← read l; lift (traverse f t).

(** ** compute_policy_scores *)

Section PolicyScores.

(** How [pd.to_numeric] reads a text cell: the number it denotes, if any.
    The parser belongs to pandas; the development holds for every one. *)
Variable parse_float : string → option Qc.

(** [pd.to_numeric(col, errors="coerce")]: what is not a number becomes
    NaN instead of raising. *)
Definition coerce (v : value) : value :=
  match v with
  | Float x => Float x
  | NaN => NaN
  | Str s =>
      match parse_float s with
      | Some x => Float x
      | None => NaN
      end
  end.

Definition to_numeric (col : list value) : list value := coerce <$> col.

(** [a * b] on two columns of one frame, element by element. *)
Definition series_mul (a b : list value) : result (list value) :=
  traverse (fun p => py_mul p.1 p.2) (zip a b).

(** The "sum" aggregation of a group: NaN entries are skipped, and a group
    with nothing left sums to 0. *)
Definition agg_step (acc : result value) (v : value) : result value :=
  a ← acc;
  match v with
  | NaN => Ok a
  | _ => py_add a v
  end.

Definition agg_sum (col : list value) : result value :=
  foldl agg_step (Ok (Float 0)) col.

(** One row of the aggregated table, before [Rank] is assigned. *)
Record Agg := mkAgg {
  agg_Policy : string;
  agg_PV_ETNB : value;
  agg_Prob_Sum : value
}.

#[global] Instance Agg_eq_dec : EqDecision Agg.
Proof. solve_decision. Defined.

(** [groupby("Policy")]: one group per distinct key, the groups in
    ascending key order (sort=True is the default; text is ordered as
    Python orders str, character by character). *)
Definition group_keys (t : DataFrame) : list string :=
  merge_sort String.le (remove_dups (Policy <$> t)).

Definition group_rows (k : string) (t : DataFrame) : DataFrame :=
  filter (fun row => Policy row = k) t.

(** [.agg(PV_ETNB=("Weighted_PV_TNB", "sum"), Prob_Sum=("Prob", "sum"))] *)
Definition agg_group (t : DataFrame) (k : string) : result Agg :=
  let g := group_rows k t in
  w ← traverse (row_get cWeighted_PV_TNB) g;
  pv ← agg_sum w;
  p ← traverse (row_get cProb) g;
  ps ← agg_sum p;
  Ok (mkAgg k pv ps).

Definition groupby_agg (t : DataFrame) : result (list Agg) :=
  traverse (agg_group t) (group_keys t).

Definition isna (v : value) : bool :=
  match v with
  | NaN => true
  | _ => false
  end.

Definition float_ltb (x y : value) : bool :=
  match x, y with
  | Float a, Float b => bool_decide (a < b)
  | _, _ => false
  end.

(** The sorting routine behind [sort_values]: its default kind is
    "quicksort", which is not stable, and which of two rows with equal keys
    it puts first differs between versions of the library and between
    machines.  The code relies on what every routine does: the rows come
    back rearranged, and rows with numeric keys in descending order of the
    key.  The order of rows with equal keys is left to the routine. *)
Record sort_routine := mkSort {
  sort_rows : list Agg → list Agg;
  sort_permutes : ∀ g, sort_rows g ≡ₚ g;
  sort_descends : ∀ g,
    Forall (fun a => ∃ x, agg_PV_ETNB a = Float x) g →
    StronglySorted
      (fun a b => float_ltb (agg_PV_ETNB a) (agg_PV_ETNB b) = false)
      (sort_rows g)
}.

Variable quicksort : sort_routine.

(** [.sort_values("PV_ETNB", ascending=False)]: the rows with a NaN key go
    last, the others are handed to the sorting routine. *)
Definition sort_values_desc (g : list Agg) : list Agg :=
  sort_rows quicksort (filter (fun a => isna (agg_PV_ETNB a) = false) g)
  ++ filter (fun a => isna (agg_PV_ETNB a) = true) g.

(** [scores["Rank"] = np.arange(1, len(scores) + 1)] *)
Definition assign_rank (g : list Agg) : list Score :=
  zip_with (fun a k => mkScore (agg_Policy a) (agg_PV_ETNB a) (agg_Prob_Sum a) k)
           g (seq 1 (length g)).

(** The lambda of the stream mode:
    [pv_stream([row["B0"], row["B1"], row["B2"], row["B3"]], r)]. *)
Definition row_pv (r : Qc) (row : Row) : result value :=
  b0 ← row_get cB0 row;
  b1 ← row_get cB1 row;
  b2 ← row_get cB2 row;
  b3 ← row_get cB3 row;
  pv_stream [b0; b1; b2; b3] r.

Definition compute_policy_scores (df : loc) (r : Qc) (mode : string)
    : M (list Score * loc) :=
  work ← copy df;
  (if String.eqb mode "Enter PV(TNB) directly" then
     col ← getitem work cPV_TNB;
     setitem work cPV_TNB (to_numeric col)
   else
     for_each [cB0; cB1; cB2; cB3] (fun c =>
       col ← getitem work c;
       setitem work c (to_numeric col));;
     pv ← apply_rows work (row_pv r);
     setitem work cPV_TNB pv);;
  col ← getitem work cProb;
  setitem work cProb (to_numeric col);;
  p ← getitem work cProb;
  v ← getitem work cPV_TNB;
  w ← lift (series_mul p v);
  setitem work cWeighted_PV_TNB w;;
  t ← read work;
  g ← lift (groupby_agg t);
  let scores := assign_rank (sort_values_desc g) in
  mret (scores, work).

End PolicyScores.

(** ** The two-period depletable resource tab *)

(** What the tab puts on the page.  Numbers are carried as they are; the
    four-decimal formatting of the page is not modelled. *)
Inductive ui_event :=
  | st_error (msg : string)
  | st_write (text : string)
  | st_metric (label : string) (x : Qc)
  | st_write_prices (P1 P2 : Qc)
  | st_caption_check (lhs rhs : Qc).

#[global] Instance ui_event_eq_dec : EqDecision ui_event.
Proof. solve_decision. Defined.

(** The page written so far and the divisors of the divisions evaluated so
    far, oldest first. *)
Record page := mkPage {
  shown : list ui_event;
  divisors : list Qc
}.

#[global] Instance page_eq_dec : EqDecision page.
Proof. solve_decision. Defined.

Definition U (A : Type) : Type := page → result A * page.

#[global] Instance U_ret : MRet U := fun _ a s => (Ok a, s).
#[global] Instance U_bind : MBind U := fun _ _ f m s =>
  match m s with
  | (Ok a, s') => f a s'
  | (Raise e, s') => (Raise e, s')
  end.

Definition emit (e : ui_event) : U unit := fun s =>
  (Ok tt, mkPage (shown s ++ [e]) (divisors s)).

(** [x / y] on floats: a zero divisor raises. *)
Definition divide (x y : Qc) : U Qc := fun s =>
  let s' := mkPage (shown s) (divisors s ++ [y]) in
  if decide (y = 0) then (Raise ZeroDivisionError, s') else (Ok (x / y), s').

(** The body of [with tabs[2]:] after the five number inputs. *)
Definition depletable_resource_tab (a b mc r3 Q : Qc) : U unit :=
  if bool_decide (b ≤ 0) then
    emit (st_error "b must be > 0")
  else
    q1 ← divide (r3 * (a - mc) + b * Q) (b * (2 + r3));
    let q2 := Q - q1 in
    let P1 := a - b * q1 in
    let P2 := a - b * q2 in
    emit (st_write "### Solution");;
    emit (st_metric "q1*" q1);;
    emit (st_metric "q2*" q2);;
    emit (st_write_prices P1 P2);;
    let lhs := P1 - mc in
    rhs ← divide (P2 - mc) (1 + r3);
    emit (st_caption_check lhs rhs).

Definition blank : page := mkPage [] [].

(** The closed form of the specification. *)
Definition q1_closed_form (a b mc r Q : Qc) : Qc :=
  (r * (a - mc) + b * Q) / (b * (2 + r)).

(** The outputs that make up the solution: the heading, the two metrics and
    the price line. *)
Definition solution_outputs_of (a b mc r Q : Qc) : list ui_event :=
  let q1 := q1_closed_form a b mc r Q in
  let q2 := Q - q1 in
  [st_write "### Solution"; st_metric "q1*" q1; st_metric "q2*" q2;
   st_write_prices (a - b * q1) (a - b * q2)].

(** ** Vocabulary of the statements *)

(** A float or NaN: what a column holds once it has been coerced. *)
Definition numeric (v : value) : Prop :=
  match v with
  | Str _ => False
  | _ => True
  end.

Definition from_result {A} (d : A) (m : result A) : A :=
  match m with
  | Ok a => a
  | Raise _ => d
  end.

(** The entry of a row in a column, NaN where the column is absent. *)
Definition cell (c : column) (row : Row) : value :=
  from_result NaN (row_get c row).

(** The sum of a column with NaN skipped, as a number. *)
Definition float_or_zero (v : value) : Qc :=
  match v with
  | Float x => x
  | _ => 0
  end.

Definition skipna_sum (col : list value) : Qc :=
  foldr (fun v s => float_or_zero v + s) 0 col.

(** The working copy row by row: each column assignment of
    [compute_policy_scores] is one function on rows, and [work_row] is
    their composition in program order. *)
Section RowWise.
Variable parse_float : string → option Qc.
Variable r : Qc.

Definition coerce_cell (c : column) (row : Row) : Row :=
  row_set c row (coerce parse_float (cell c row)).

Definition set_pv (row : Row) : Row :=
  row_set cPV_TNB row (from_result NaN (row_pv r row)).

Definition set_weighted (row : Row) : Row :=
  row_set cWeighted_PV_TNB row
    (from_result NaN (py_mul (Prob row) (PV_TNB row))).

Definition direct (mode : string) : bool :=
  String.eqb mode "Enter PV(TNB) directly".

Definition pre_row (mode : string) (row : Row) : Row :=
  if direct mode then coerce_cell cPV_TNB row
  else set_pv (coerce_cell cB3 (coerce_cell cB2
         (coerce_cell cB1 (coerce_cell cB0 row)))).

Definition work_row (mode : string) (row : Row) : Row :=
  set_weighted (coerce_cell cProb (pre_row mode row)).

End RowWise.

(** Both factors of the weighted value are numeric. *)
Definition priced (row : Row) : Prop :=
  numeric (Prob row) ∧ numeric (PV_TNB row).

(** The row carries its weighted value, the product of its two factors. *)
Definition scored (row : Row) : Prop :=
  numeric (Prob row) ∧ numeric (PV_TNB row) ∧
  ∃ w, Weighted_PV_TNB row = Some w
       ∧ py_mul (Prob row) (PV_TNB row) = Ok w ∧ numeric w.

(** The aggregated table as a function of the working copy. *)
Definition agg_of (t : DataFrame) (k : string) : Agg :=
  let g := group_rows k t in
  mkAgg k (Float (skipna_sum (cell cWeighted_PV_TNB <$> g)))
          (Float (skipna_sum (Prob <$> g))).

Definition aggregate (t : DataFrame) : list Agg := agg_of t <$> group_keys t.

Definition key (a : Agg) : value := agg_PV_ETNB a.

Definition float_key (a : Agg) : Prop := ∃ x, key a = Float x.

(** [a] may stand before [b] in descending order: its key is not lower. *)
Definition not_below (a b : Agg) : Prop := float_ltb (key a) (key b) = false.

(** A computation leaves every object but [l] as it was. *)
Definition writes_only {A} (l : loc) (m : M A) : Prop :=
  ∀ (σ : store) l', l' ≠ l → (m σ).2 !! l' = σ !! l'.

(** The aggregated table in its final order. *)
Definition sorted_aggs (quicksort : sort_routine) (work : DataFrame) : list Agg :=
  sort_values_desc quicksort (aggregate work).

(** The aggregates of a score row are the NaN-skipping sums over the rows
    of its policy in the working copy. *)
Definition policy_totals (work : DataFrame) (s : Score) : Prop :=
  let g := group_rows (score_Policy s) work in
  PV_ETNB s = Float (skipna_sum (cell cWeighted_PV_TNB <$> g))
  ∧ Prob_Sum s = Float (skipna_sum (Prob <$> g)).

(** [s] has at least the PV_ETNB of [s']. *)
Definition pv_ge (s s' : Score) : Prop :=
  ∃ x y, PV_ETNB s = Float x ∧ PV_ETNB s' = Float y ∧ y ≤ x.

(** ** The specification of the scores, in its own terms *)

(** [v'] is what coercion to a number makes of the entry [v]: a number
    stays, a text that denotes a number becomes that number, and anything
    else is missing. *)
Inductive reads_as (parse : string → option Qc) : value → value → Prop :=
  | reads_number x : reads_as parse (Float x) (Float x)
  | reads_missing : reads_as parse NaN NaN
  | reads_text s x : parse s = Some x → reads_as parse (Str s) (Float x)
  | reads_junk s : parse s = None → reads_as parse (Str s) NaN.

(** [w] is Prob × PV_TNB: the product of the two numbers, missing when a
    factor is missing. *)
Inductive weighted_by : value → value → value → Prop :=
  | weighted_numbers p v : weighted_by (Float p) (Float v) (Float (p * v))
  | weighted_missing a b :
      numeric a → numeric b → a = NaN ∨ b = NaN → weighted_by a b NaN.

(** [v] is the present value of the stream [B] at rate [r]: the discounted
    sum of the specification when every benefit is a number, missing when
    one of them is. *)
Inductive discounted (r : Qc) : list value → value → Prop :=
  | discounted_numbers B :
      discounted r (Float <$> B) (Float (present_value B r))
  | discounted_missing B :
      Forall numeric B → NaN ∈ B → discounted r B NaN.

(** PV_ETNB of policy [k]: Σ Prob × PV_TNB over the rows of [k] where both
    are numbers. *)
Definition expected_value (k : string) (t : DataFrame) : Qc :=
  foldr (fun row acc =>
           if decide (Policy row = k) then
             match Prob row, PV_TNB row with
             | Float p, Float v => p * v + acc
             | _, _ => acc
             end
           else acc) 0 t.

(** Prob_Sum of policy [k]: Σ Prob over the rows of [k] where it is a
    number. *)
Definition probability_mass (k : string) (t : DataFrame) : Qc :=
  foldr (fun row acc =>
           if decide (Policy row = k) then
             match Prob row with
             | Float p => p + acc
             | _ => acc
             end
           else acc) 0 t.

(** ** Sample inputs *)

(** A parser that reads no text as a number. *)
Definition no_parse : string → option Qc := fun _ => None.

Definition outcome_row (p o : string) (prob pv : value) : Row :=
  mkRow p o prob pv (Float 0) (Float 0) (Float 0) (Float 0) None.

Definition session (t : DataFrame) : store := {[ 1%positive := t ]}.

Definition two_policies : DataFrame :=
  [ outcome_row "A" "E" (Float 1) (Float (num 30));
    outcome_row "B" "E" (Float 1) (Float (num 50)) ].

Definition tied_policies : DataFrame :=
  [ outcome_row "B" "E" (Float 1) (Float (num 10));
    outcome_row "A" "E" (Float 1) (Float (num 10)) ].

Definition text_in_prob : DataFrame :=
  [ outcome_row "A" "E" (Str "abc") (Float (num 10));
    outcome_row "A" "F" (Float 1) (Float (num 20)) ].

(** The same two policies with other benefit streams and outcome names. *)
Definition two_policies_other_benefits : DataFrame :=
  [ mkRow "A" "G" (Float 1) (Float (num 30))
          (Float (num 7)) (Str "x") NaN (Float 1) None;
    mkRow "B" "H" (Float 1) (Float (num 50))
          (Float (num 9)) (Float 0) (Float (num 2)) NaN None ].

(** Two policies with two outcomes each, the rows interleaved:
    A has 1/2 × 40 + 1/2 × 60 = 50, B has 1/4 × 60 + 3/4 × 20 = 30. *)
Definition weighted_policies : DataFrame :=
  [ outcome_row "B" "E" (Float (frac 1 4)) (Float (num 60));
    outcome_row "A" "E" (Float (frac 1 2)) (Float (num 40));
    outcome_row "B" "F" (Float (frac 3 4)) (Float (num 20));
    outcome_row "A" "F" (Float (frac 1 2)) (Float (num 60)) ].

(** One sorting routine that meets the requirements: insertion into a
    descending list.  The statements hold for every routine; this one
    serves where a statement is run on a sample table. *)
Fixpoint insert_desc (x : Agg) (l : list Agg) : list Agg :=
  match l with
  | [] => [x]
  | y :: l' =>
      if float_ltb (agg_PV_ETNB x) (agg_PV_ETNB y)
      then y :: insert_desc x l'
      else x :: y :: l'
  end.

Definition sort_desc (l : list Agg) : list Agg := foldr insert_desc [] l.

Definition insertion_sort : sort_routine.
Proof.
  assert (∀ x l, insert_desc x l ≡ₚ x :: l) as Hins.
  { intros x l. induction l as [|y l IH]; simpl; [done|].
    destruct (float_ltb _ _); [|done]. rewrite IH. apply Permutation_swap. }
  assert (∀ l, sort_desc l ≡ₚ l) as Hperm.
  { induction l as [|x l IH]; simpl; [done|]. by rewrite Hins, IH. }
  refine (mkSort sort_desc Hperm _).
  induction g as [|x g IH]; intros Hg; simpl; [constructor|].
  apply Forall_cons in Hg as [[kx Hx] Hg].
  assert (Forall (fun a => ∃ y, agg_PV_ETNB a = Float y) (sort_desc g)) as Hf
    by by rewrite Hperm.
  specialize (IH Hg). revert IH Hf. generalize (sort_desc g). clear Hg.
  induction l as [|y l IHl]; intros Hs Hf; simpl; [repeat constructor|].
  apply Forall_cons in Hf as [[ky Hy] Hf].
  apply StronglySorted_inv in Hs as [Hs Hyl].
  rewrite Hx, Hy. simpl. destruct (bool_decide (kx < ky)) eqn:E.
  - apply bool_decide_eq_true in E. constructor; [by apply IHl|].
    rewrite Hins. constructor; [|done]. rewrite Hx, Hy. simpl.
    apply bool_decide_eq_false. intros H.
    apply (irreflexivity Qclt kx). by apply Qclt_trans with ky.
  - constructor; [by constructor|]. constructor.
    + by rewrite Hx, Hy.
    + apply bool_decide_eq_false, Qcnot_lt_le in E.
      rewrite Forall_forall in Hyl, Hf |- *. intros z Hz.
      destruct (Hf z Hz) as [kz Hkz]. specialize (Hyl z Hz).
      rewrite Hy, Hkz in Hyl. rewrite Hx, Hkz. simpl in *.
      apply bool_decide_eq_false, Qcnot_lt_le in Hyl.
      apply bool_decide_eq_false, Qcle_not_lt. by apply Qcle_trans with ky.
Defined.

(** A routine run on the rows in reverse order meets the requirements as
    well, and treats rows with equal keys differently. *)
Definition reversing_sort (inner : sort_routine) : sort_routine.
Proof.
  refine (mkSort (fun g => sort_rows inner (reverse g)) _ _).
  - intros g. rewrite sort_permutes. apply reverse_Permutation.
  - intros g Hg. apply sort_descends. by apply Forall_reverse.
Defined.

(** ** Further vocabulary *)

(** The plain sum of a list of numbers. *)
Definition total (l : list Qc) : Qc := foldr Qcplus 0 l.

(** Every benefit of the stream multiplied by [c]. *)
Definition scale (c : Qc) (B : list Qc) : list Qc := Qcmult c <$> B.

(** What the aggregation reads of a row of the working copy. *)
Definition essence (row : Row) : string * value * value :=
  (Policy row, Prob row, cell cWeighted_PV_TNB row).

(** Two input rows agree on every column the mode reads. *)
Definition reads_same (mode : string) (a b : Row) : Prop :=
  Policy a = Policy b ∧ Prob a = Prob b
  ∧ if direct mode then PV_TNB a = PV_TNB b
    else B0 a = B0 b ∧ B1 a = B1 b ∧ B2 a = B2 b ∧ B3 a = B3 b.

(** ** The rest of the policy optimizer tab *)

(** [scores.iloc[0]] *)
Definition iloc0 (scores : list Score) : result Score :=
  match scores with
  | [] => Raise IndexError
  | s :: _ => Ok s
  end.

(** [best = scores.iloc[0]] and the two fields of it that the success
    message shows: [best['Policy']] and [best['PV_ETNB']]. *)
Definition recommended_policy (scores : list Score) : result (string * value) :=
  best ← iloc0 scores;
  Ok (score_Policy best, PV_ETNB best).

(** ** The PV calculator tab *)

(** The four number inputs collected into [B], then [pv_stream(B, r2)]:
    the value the metric shows. *)
Definition pv_calculator (b0 b1 b2 b3 r2 : Qc) : result value :=
  pv_stream [Float b0; Float b1; Float b2; Float b3] r2.

Arguments pv_stream : simpl never.

(** ** Arithmetic helpers *)

Lemma Qcpower_nonzero (x : Qc) (n : nat) : x ≠ 0 → x ^ n ≠ 0.
Proof.
  intros Hx. induction n as [|n IH]; simpl.
  - apply Q_apart_0_1.
  - intros H. destruct (Qcmult_integral _ _ H); contradiction.
Qed.

Lemma discount_factor_nonzero (r : Qc) : 0 ≤ r → 1 + r ≠ 0.
Proof.
  intros Hr H.
  assert (0 < 1 + r) as Hpos by (apply Qcplus_pos_nonneg; done).
  rewrite H in Hpos. by apply (irreflexivity Qclt 0).
Qed.

(** ** pv_stream *)

Lemma pv_step_float (B : list Qc) r s i b :
  B !! i = Some b → (1 + r) ^ i ≠ 0 →
  pv_step (Float <$> B) r (Ok (Float s)) i = Ok (Float (s + b / (1 + r) ^ i)).
Proof.
  intros Hb Hd. unfold pv_step, py_index. simpl.
  rewrite list_lookup_fmap, Hb. simpl.
  by destruct (decide ((1 + r) ^ i = 0)).
Qed.

Lemma pv_prefix (B : list Qc) r n :
  1 + r ≠ 0 → (n ≤ length B)%nat →
  foldl (pv_step (Float <$> B) r) (Ok (Float 0)) (seq 0 n)
  = Ok (Float (sigma n (fun i => nth i B 0 / (1 + r) ^ i))).
Proof.
  intros Hr. induction n as [|n IH]; intros Hn; [done|].
  rewrite seq_S, foldl_app, IH by lia. cbn [foldl Nat.add].
  destruct (lookup_lt_is_Some_2 B n) as [b Hb]; [lia|].
  rewrite (pv_step_float B r _ n b Hb) by by apply Qcpower_nonzero.
  cbn [sigma]. by rewrite (nth_lookup_Some B n _ b Hb).
Qed.

(** C1: for every finite sequence of net benefits B[0..n] and every rate
    r >= 0, [pv_stream] returns the sum over i of B[i] / (1+r)^i. *)
Theorem pv_stream_is_discounted_sum (B : list Qc) (r : Qc) :
  0 ≤ r → pv_stream (Float <$> B) r = Ok (Float (present_value B r)).
Proof.
  intros Hr. unfold pv_stream, present_value, range.
  rewrite length_fmap. apply pv_prefix; [by apply discount_factor_nonzero|done].
Qed.

Lemma pv_zero_prefix r n m :
  (1 + r ≠ 0 ∨ (n ≤ 1)%nat) → (n ≤ m)%nat →
  foldl (pv_step (replicate m (Float 0)) r) (Ok (Float 0)) (seq 0 n)
  = Ok (Float 0).
Proof.
  intros Hr. induction n as [|n IH]; intros Hn; [done|].
  rewrite seq_S, foldl_app.
  rewrite IH; [|destruct Hr; [by left|right; lia]|lia].
  cbn [foldl Nat.add]. unfold pv_step, py_index.
  rewrite lookup_replicate_2 by lia. simpl.
  assert ((1 + r) ^ n ≠ 0) as Hd.
  { destruct Hr as [Hr|Hr]; [by apply Qcpower_nonzero|].
    assert (n = 0%nat) as -> by lia. apply Q_apart_0_1. }
  destruct (decide ((1 + r) ^ n = 0)) as [E|_]; [by destruct Hd|].
  simpl. do 2 f_equal.
Qed.

Lemma pv_raise_tail B r e l : foldl (pv_step B r) (Raise e) l = Raise e.
Proof. induction l; simpl; auto. Qed.

(** C7, as amended: on a stream of n zero benefits [pv_stream] returns 0
    exactly when r <> -1 or the stream has at most one period; at r = -1 a
    longer stream divides by (1+r)^1 = 0 and raises. *)
Theorem pv_stream_zero_stream (r : Qc) (n : nat) :
  pv_stream (replicate n (Float 0)) r = Ok (Float 0) ↔ (1 + r ≠ 0 ∨ (n ≤ 1)%nat).
Proof.
  unfold pv_stream, range. rewrite length_replicate. split.
  - intros H. destruct (decide (1 + r = 0)) as [Hr|Hr]; [|by left].
    right. destruct n as [|[|n]]; [lia..|]. exfalso. revert H.
    change (seq 0 (S (S n))) with (0%nat :: 1%nat :: seq 2 n).
    cbn [foldl]. unfold pv_step at 2 3. unfold py_index. simpl.
    destruct (decide (Q2Qc 1 = 0)) as [E|_]; [by destruct Q_apart_0_1|].
    simpl. rewrite Hr. rewrite Qcmult_0_l.
    destruct (decide (0 = 0)); [|done]. simpl.
    by rewrite pv_raise_tail.
  - intros H. by apply pv_zero_prefix.
Qed.

(** Two zero benefits at r = -1: the second term is 0 / 0. *)
Lemma pv_stream_zero_stream_fails :
  pv_stream (replicate 2 (Float 0)) (-1) = Raise ZeroDivisionError
  ∧ ¬ (∀ (r : Qc) (n : nat), pv_stream (replicate n (Float 0)) r = Ok (Float 0)).
Proof.
  assert (pv_stream (replicate 2 (Float 0)) (-1) = Raise ZeroDivisionError) as H
    by (vm_compute; reflexivity).
  split; [done|]. intros Hall. specialize (Hall (-1) 2%nat). congruence.
Qed.

(** C8: the present value of the one-element stream [B0] is B0 at every
    rate, the period-0 term being divided by (1+r)^0 = 1. *)
Theorem pv_stream_single_period (b0 r : Qc) :
  pv_stream [Float b0] r = Ok (Float b0).
Proof.
  unfold pv_stream, range, pv_step, py_index. simpl.
  destruct (decide (Q2Qc 1 = 0)) as [E|_]; [by destruct Q_apart_0_1|].
  simpl. do 2 f_equal. rewrite Qcplus_0_l. apply (right_id 1 Qcdiv).
Qed.

(** ** The resource tab *)

Section ResourceTab.
Variables a b mc r Q : Qc.

Lemma tab_nonpositive :
  b ≤ 0 →
  depletable_resource_tab a b mc r Q blank
  = (Ok tt, mkPage [st_error "b must be > 0"] []).
Proof.
  intros Hb. unfold depletable_resource_tab.
  by rewrite bool_decide_eq_true_2.
Qed.

Lemma tab_first_division_fails :
  0 < b → 2 + r = 0 →
  depletable_resource_tab a b mc r Q blank
  = (Raise ZeroDivisionError, mkPage [] [b * (2 + r)]).
Proof.
  intros Hb Hr. unfold depletable_resource_tab.
  rewrite bool_decide_eq_false_2 by by apply Qclt_not_le.
  unfold mbind, U_bind, divide. simpl.
  destruct (decide (b * (2 + r) = 0)) as [_|E]; [done|].
  destruct E. rewrite Hr. apply Qcmult_0_r.
Qed.

Lemma divisor_nonzero : 0 < b → 2 + r ≠ 0 → b * (2 + r) ≠ 0.
Proof.
  intros Hb Hr H. destruct (Qcmult_integral _ _ H) as [E|E]; [|done].
  rewrite E in Hb. by apply (irreflexivity Qclt 0).
Qed.

Lemma tab_check_fails :
  0 < b → 2 + r ≠ 0 → 1 + r = 0 →
  depletable_resource_tab a b mc r Q blank
  = (Raise ZeroDivisionError,
     mkPage (solution_outputs_of a b mc r Q) [b * (2 + r); 1 + r]).
Proof.
  intros Hb Hr Hr1. unfold depletable_resource_tab.
  rewrite bool_decide_eq_false_2 by by apply Qclt_not_le.
  unfold mbind, U_bind, divide, emit. simpl.
  destruct (decide (b * (2 + r) = 0)) as [E|_]; [by destruct (divisor_nonzero Hb Hr)|].
  simpl. by destruct (decide (1 + r = 0)).
Qed.

Lemma tab_solves :
  0 < b → 2 + r ≠ 0 → 1 + r ≠ 0 →
  let q1 := q1_closed_form a b mc r Q in
  let q2 := Q - q1 in
  let P1 := a - b * q1 in
  let P2 := a - b * q2 in
  depletable_resource_tab a b mc r Q blank
  = (Ok tt,
     mkPage (solution_outputs_of a b mc r Q
             ++ [st_caption_check (P1 - mc) ((P2 - mc) / (1 + r))])
            [b * (2 + r); 1 + r]).
Proof.
  intros Hb Hr Hr1. unfold depletable_resource_tab.
  rewrite bool_decide_eq_false_2 by by apply Qclt_not_le.
  unfold mbind, U_bind, divide, emit. simpl.
  destruct (decide (b * (2 + r) = 0)) as [E|_]; [by destruct (divisor_nonzero Hb Hr)|].
  simpl. by destruct (decide (1 + r = 0)).
Qed.

Lemma closed_form_efficient :
  b ≠ 0 → 2 + r ≠ 0 → 1 + r ≠ 0 →
  let q1 := q1_closed_form a b mc r Q in
  let q2 := Q - q1 in
  let P1 := a - b * q1 in
  let P2 := a - b * q2 in
  q1 + q2 = Q ∧ P1 - mc = (P2 - mc) / (1 + r).
Proof.
  intros Hb Hr Hr1. cbn zeta. unfold q1_closed_form. split.
  - ring.
  - field. repeat split; assumption.
Qed.

End ResourceTab.

(** ** Generic facts on the two monads *)

Lemma M_bind_run {A B} (m : M A) (k : A → M B) σ a σ' :
  m σ = (Ok a, σ') → (x ← m; k x) σ = k a σ'.
Proof. intros H. unfold mbind, M_bind. by rewrite H. Qed.

Lemma traverse_fmap {A B C} (f : B → result C) (g : A → B) l :
  traverse f (g <$> l) = traverse (f ∘ g) l.
Proof.
  induction l as [|x l IH]; [done|].
  rewrite fmap_cons. cbn [traverse]. by rewrite IH.
Qed.

Lemma traverse_ok {A B} (f : A → result B) (h : A → B) l :
  (∀ x, x ∈ l → f x = Ok (h x)) → traverse f l = Ok (h <$> l).
Proof.
  induction l as [|x l IH]; intros H; [done|].
  rewrite fmap_cons. cbn [traverse]. rewrite H by left.
  rewrite IH; [done|]. intros y Hy. apply H. by right.
Qed.

Lemma zip_with_fmap_same {A B C} (f : A → B → C) (h : A → B) l :
  zip_with f l (h <$> l) = (fun x => f x (h x)) <$> l.
Proof. induction l; [done|]. rewrite fmap_cons. simpl. by f_equal. Qed.

Lemma row_get_cell c row :
  c ≠ cWeighted_PV_TNB → row_get c row = Ok (cell c row).
Proof. by destruct c. Qed.

Lemma copy_run σ df t :
  σ !! df = Some t → copy df σ = (Ok (fresh (dom σ)), <[fresh (dom σ) := t]> σ).
Proof. intros H. unfold copy. by rewrite H. Qed.

Lemma read_run (σ : store) l t : σ !! l = Some t → read l σ = (Ok t, σ).
Proof. intros H. unfold read. by rewrite H. Qed.

Lemma getitem_run (σ : store) l c t :
  σ !! l = Some t → c ≠ cWeighted_PV_TNB →
  getitem l c σ = (Ok (cell c <$> t), σ).
Proof.
  intros H Hc. unfold getitem. rewrite (M_bind_run _ _ _ _ _ (read_run _ _ _ H)).
  unfold lift. rewrite (traverse_ok _ (cell c)); [done|].
  intros. by apply row_get_cell.
Qed.

Lemma setitem_run (σ : store) l c t (h : Row → value) :
  σ !! l = Some t →
  setitem l c (h <$> t) σ
  = (Ok tt, <[l := (fun row => row_set c row (h row)) <$> t]> σ).
Proof.
  intros H. unfold setitem. rewrite (M_bind_run _ _ _ _ _ (read_run _ _ _ H)).
  rewrite decide_True by by rewrite length_fmap.
  unfold write. by rewrite zip_with_fmap_same.
Qed.

Lemma coerce_column_run parse (σ : store) l c t :
  σ !! l = Some t → c ≠ cWeighted_PV_TNB →
  (col ← getitem l c; setitem l c (to_numeric parse col)) σ
  = (Ok tt, <[l := coerce_cell parse c <$> t]> σ).
Proof.
  intros H Hc. rewrite (M_bind_run _ _ _ _ _ (getitem_run _ _ _ _ H Hc)).
  unfold to_numeric. rewrite <-list_fmap_compose.
  by rewrite (setitem_run _ _ _ _ _ H).
Qed.

(** ** Numeric values stay numeric *)

Lemma coerce_numeric parse v : numeric (coerce parse v).
Proof. destruct v; simpl; [done..|]. by destruct (parse s). Qed.

Lemma py_mul_numeric x y :
  numeric x → numeric y → ∃ v, py_mul x y = Ok v ∧ numeric v.
Proof. destruct x, y; simpl; intros; try done; eauto. Qed.

Lemma py_add_numeric x y :
  numeric x → numeric y → ∃ v, py_add x y = Ok v ∧ numeric v.
Proof. destruct x, y; simpl; intros; try done; eauto. Qed.

Lemma py_truediv_numeric x d :
  numeric x → d ≠ 0 → ∃ v, py_truediv x (Float d) = Ok v ∧ numeric v.
Proof.
  intros Hx Hd. destruct x; simpl; try done;
    destruct (decide (d = 0)); try done; eauto.
Qed.

Lemma pv_fold_numeric B r a l :
  1 + r ≠ 0 → Forall numeric B → numeric a →
  Forall (fun i => (i < length B)%nat) l →
  ∃ v, foldl (pv_step B r) (Ok a) l = Ok v ∧ numeric v.
Proof.
  intros Hr HB. revert a. induction l as [|i l IH]; intros a Ha Hl.
  - simpl. eauto.
  - apply Forall_cons in Hl as [Hi Hl]. cbn [foldl].
    destruct (lookup_lt_is_Some_2 B i Hi) as [b Hb].
    assert (numeric b) as Hnb by (eapply Forall_lookup_1; eauto).
    destruct (py_truediv_numeric b ((1 + r) ^ i) Hnb) as (q & Hq & Hnq);
      [by apply Qcpower_nonzero|].
    destruct (py_add_numeric a q Ha Hnq) as (s & Hs & Hns).
    assert (pv_step B r (Ok a) i = Ok s) as ->.
    { unfold pv_step, py_index. rewrite Hb. simpl. rewrite Hq. simpl. done. }
    by apply IH.
Qed.

Lemma pv_stream_numeric B r :
  1 + r ≠ 0 → Forall numeric B →
  ∃ v, pv_stream B r = Ok v ∧ numeric v.
Proof.
  intros Hr HB. apply pv_fold_numeric; [done..|].
  apply Forall_forall. intros i Hi. unfold range in Hi.
  apply elem_of_seq in Hi. lia.
Qed.

Lemma agg_fold_numeric a col :
  Forall numeric col →
  foldl agg_step (Ok (Float a)) col = Ok (Float (a + skipna_sum col)).
Proof.
  revert a. induction col as [|v col IH]; intros a Hc.
  - simpl. by rewrite Qcplus_0_r.
  - apply Forall_cons in Hc as [Hv Hc]. cbn [foldl foldr skipna_sum].
    destruct v as [x| |s]; [| |done].
    + simpl. rewrite IH by done. do 2 f_equal. simpl. fold (skipna_sum col). ring.
    + simpl. rewrite IH by done. do 2 f_equal. simpl. fold (skipna_sum col). ring.
Qed.

Lemma agg_sum_numeric col :
  Forall numeric col → agg_sum col = Ok (Float (skipna_sum col)).
Proof.
  intros H. unfold agg_sum. rewrite agg_fold_numeric by done.
  by rewrite Qcplus_0_l.
Qed.

(** ** What the working copy holds, row by row *)

Lemma set_weighted_scored row :
  numeric (Prob row) → numeric (PV_TNB row) → scored (set_weighted row).
Proof.
  intros Hp Hv. destruct (py_mul_numeric _ _ Hp Hv) as (w & Hw & Hn).
  destruct row. unfold set_weighted, scored. simpl in *.
  rewrite Hw. simpl. eauto 10.
Qed.

Lemma work_row_frame parse r mode row :
  Policy (work_row parse r mode row) = Policy row
  ∧ Outcome (work_row parse r mode row) = Outcome row
  ∧ Prob (work_row parse r mode row) = coerce parse (Prob row).
Proof. destruct row. unfold work_row, pre_row. by destruct (direct mode). Qed.

Lemma work_row_direct parse r mode row :
  direct mode = true →
  PV_TNB (work_row parse r mode row) = coerce parse (PV_TNB row)
  ∧ scored (work_row parse r mode row).
Proof.
  intros E. unfold work_row, pre_row. rewrite E. split.
  - by destruct row.
  - apply set_weighted_scored; destruct row; apply coerce_numeric.
Qed.

Lemma row_pv_coerced parse r row :
  1 + r ≠ 0 →
  let row1 := coerce_cell parse cB3 (coerce_cell parse cB2
                (coerce_cell parse cB1 (coerce_cell parse cB0 row))) in
  ∃ v, row_pv r row1 = Ok v ∧ numeric v
       ∧ pv_stream [coerce parse (B0 row); coerce parse (B1 row);
                    coerce parse (B2 row); coerce parse (B3 row)] r = Ok v.
Proof.
  intros Hr. destruct row. unfold row_pv. simpl.
  edestruct (pv_stream_numeric) as (v & Hv & Hn); [exact Hr| |eauto].
  repeat constructor; apply coerce_numeric.
Qed.

Lemma work_row_stream parse r mode row :
  direct mode = false → 1 + r ≠ 0 →
  pv_stream [coerce parse (B0 row); coerce parse (B1 row);
             coerce parse (B2 row); coerce parse (B3 row)] r
  = Ok (PV_TNB (work_row parse r mode row))
  ∧ scored (work_row parse r mode row).
Proof.
  intros E Hr. unfold work_row, pre_row. rewrite E.
  destruct (row_pv_coerced parse r row Hr) as (v & Hv & Hn & Hpv).
  unfold set_pv. rewrite Hv. split.
  - rewrite Hpv. by destruct row.
  - apply set_weighted_scored; destruct row; simpl; [apply coerce_numeric|done].
Qed.

Lemma work_row_scored parse r mode row :
  direct mode = true ∨ 1 + r ≠ 0 → scored (work_row parse r mode row).
Proof.
  intros H. destruct (direct mode) eqn:E.
  - by apply work_row_direct.
  - destruct H as [|H]; [done|]. by apply work_row_stream.
Qed.

(** ** The aggregated table as a pure function of the working copy *)

Lemma zip_fmap_same {A B C} (f : A → B) (g : A → C) (l : list A) :
  zip (f <$> l) (g <$> l) = (fun x => (f x, g x)) <$> l.
Proof. induction l; [done|]. rewrite !fmap_cons. simpl. by f_equal. Qed.

Lemma series_mul_run (t : DataFrame) :
  Forall priced t →
  series_mul (cell cProb <$> t) (cell cPV_TNB <$> t)
  = Ok ((fun row => from_result NaN (py_mul (Prob row) (PV_TNB row))) <$> t).
Proof.
  intros Ht. unfold series_mul. rewrite zip_fmap_same, traverse_fmap.
  apply traverse_ok. intros row Hrow.
  rewrite Forall_forall in Ht. destruct (Ht row Hrow) as [Hp Hv].
  destruct (py_mul_numeric _ _ Hp Hv) as (w & Hw & _).
  unfold compose, cell. simpl. by rewrite Hw.
Qed.

Lemma agg_group_run (t : DataFrame) k :
  Forall scored t → agg_group t k = Ok (agg_of t k).
Proof.
  intros Ht. unfold agg_group, agg_of.
  assert (Forall scored (group_rows k t)) as Hg.
  { unfold group_rows. rewrite Forall_forall in Ht |- *.
    intros row Hrow. apply list_elem_of_filter in Hrow as [_ Hrow]. auto. }
  rewrite (traverse_ok (row_get cWeighted_PV_TNB) (cell cWeighted_PV_TNB)).
  2:{ intros row Hrow. rewrite Forall_forall in Hg.
      destruct (Hg row Hrow) as (_ & _ & w & Hw & _).
      unfold cell. simpl. by rewrite Hw. }
  cbn [mbind result_bind]. rewrite agg_sum_numeric.
  2:{ apply Forall_fmap. eapply Forall_impl; [exact Hg|].
      intros row (_ & _ & w & Hw & _ & Hn). unfold cell. simpl. by rewrite Hw. }
  cbn [mbind result_bind].
  rewrite (traverse_ok (row_get cProb) Prob) by (intros; reflexivity).
  cbn [mbind result_bind]. rewrite agg_sum_numeric.
  2:{ apply Forall_fmap. eapply Forall_impl; [exact Hg|]. by intros row (? & _). }
  done.
Qed.

Lemma groupby_agg_run (t : DataFrame) :
  Forall scored t → groupby_agg t = Ok (aggregate t).
Proof.
  intros Ht. unfold groupby_agg, aggregate. apply traverse_ok.
  intros k _. by apply agg_group_run.
Qed.

(** ** Running compute_policy_scores *)

Lemma store_lookup_insert (σ : store) l t : <[l := t]> σ !! l = Some t.
Proof. apply lookup_insert_eq. Qed.

Lemma apply_rows_run (σ : store) l t (f : Row → result value) :
  σ !! l = Some t → (∀ row, row ∈ t → ∃ v, f row = Ok v) →
  apply_rows l f σ = (Ok ((fun row => from_result NaN (f row)) <$> t), σ).
Proof.
  intros H Hf. unfold apply_rows.
  rewrite (M_bind_run _ _ _ _ _ (read_run _ _ _ H)). unfold lift.
  rewrite (traverse_ok f (fun row => from_result NaN (f row))); [done|].
  intros row Hrow. destruct (Hf row Hrow) as [v Hv]. by rewrite Hv.
Qed.

Lemma pre_row_priced parse r mode row :
  direct mode = true ∨ 1 + r ≠ 0 →
  priced (coerce_cell parse cProb (pre_row parse r mode row)).
Proof.
  intros Hm. unfold pre_row, priced. destruct (direct mode) eqn:E.
  - destruct row; split; apply coerce_numeric.
  - destruct Hm as [|Hr]; [done|].
    destruct (row_pv_coerced parse r row Hr) as (v & Hv & Hn & _).
    unfold set_pv. rewrite Hv. destruct row; split; [apply coerce_numeric|done].
Qed.

Lemma mode_branch_run parse (σ : store) w t r mode :
  σ !! w = Some t → direct mode = true ∨ 1 + r ≠ 0 →
  (if String.eqb mode "Enter PV(TNB) directly" then
     col ← getitem w cPV_TNB;
     setitem w cPV_TNB (to_numeric parse col)
   else
     for_each [cB0; cB1; cB2; cB3] (fun c =>
       col ← getitem w c;
       setitem w c (to_numeric parse col));;
     pv ← apply_rows w (row_pv r);
     setitem w cPV_TNB pv) σ
  = (Ok tt, <[w := pre_row parse r mode <$> t]> σ).
Proof.
  intros H Hm. unfold pre_row. fold (direct mode).
  destruct (direct mode) eqn:E.
  - by apply coerce_column_run.
  - destruct Hm as [|Hr]; [done|]. cbn [for_each].
    rewrite (M_bind_run _ _ _ tt
      (<[w := coerce_cell parse cB3 <$> (coerce_cell parse cB2 <$>
        (coerce_cell parse cB1 <$> (coerce_cell parse cB0 <$> t)))]> σ)).
    2:{ rewrite (M_bind_run _ _ _ _ _ (coerce_column_run parse _ _ cB0 _ H ltac:(done))).
        rewrite (M_bind_run _ _ _ _ _
          (coerce_column_run parse _ _ cB1 _ (store_lookup_insert _ _ _) ltac:(done))).
        rewrite (M_bind_run _ _ _ _ _
          (coerce_column_run parse _ _ cB2 _ (store_lookup_insert _ _ _) ltac:(done))).
        rewrite (M_bind_run _ _ _ _ _
          (coerce_column_run parse _ _ cB3 _ (store_lookup_insert _ _ _) ltac:(done))).
        unfold mret, M_ret. by rewrite !insert_insert_eq. }
    rewrite <-!list_fmap_compose.
    erewrite M_bind_run.
    2:{ apply apply_rows_run; [apply store_lookup_insert|].
        intros row (row0 & -> & _)%list_elem_of_fmap.
        destruct (row_pv_coerced parse r row0 Hr) as (v & Hv & _). eauto. }
    rewrite (setitem_run _ _ _ _ _ (store_lookup_insert _ _ _)).
    rewrite insert_insert_eq. by rewrite <-list_fmap_compose.
Qed.

Lemma compute_policy_scores_run parse sorter (σ : store) df t r mode :
  σ !! df = Some t → direct mode = true ∨ 1 + r ≠ 0 →
  compute_policy_scores parse sorter df r mode σ
  = (Ok (assign_rank (sort_values_desc sorter
           (aggregate (work_row parse r mode <$> t))), fresh (dom σ)),
     <[fresh (dom σ) := work_row parse r mode <$> t]> σ).
Proof.
  intros H Hm. unfold compute_policy_scores.
  rewrite (M_bind_run _ _ _ _ _ (copy_run _ _ _ H)).
  set (w := fresh (dom σ)).
  rewrite (M_bind_run _ _ _ _ _
    (mode_branch_run parse _ w t r mode (store_lookup_insert _ _ _) Hm)).
  set (t1 := pre_row parse r mode <$> t).
  rewrite (M_bind_run _ _ _ _ _
    (getitem_run _ _ cProb _ (store_lookup_insert _ _ _) ltac:(done))).
  unfold to_numeric. rewrite <-list_fmap_compose.
  rewrite (M_bind_run _ _ _ _ _ (setitem_run _ _ _ _ _ (store_lookup_insert _ _ _))).
  change (λ row, row_set cProb row ((coerce parse ∘ cell cProb) row))
    with (coerce_cell parse cProb).
  set (t2 := coerce_cell parse cProb <$> t1).
  rewrite (M_bind_run _ _ _ _ _
    (getitem_run _ _ cProb _ (store_lookup_insert _ _ _) ltac:(done))).
  rewrite (M_bind_run _ _ _ _ _
    (getitem_run _ _ cPV_TNB _ (store_lookup_insert _ _ _) ltac:(done))).
  assert (Forall priced t2) as Hp.
  { subst t2 t1. rewrite <-list_fmap_compose.
    apply Forall_fmap, Forall_forall. intros row _. by apply pre_row_priced. }
  erewrite M_bind_run; [|unfold lift; by rewrite (series_mul_run _ Hp)].
  rewrite (M_bind_run _ _ _ _ _ (setitem_run _ _ _ _ _ (store_lookup_insert _ _ _))).
  rewrite (M_bind_run _ _ _ _ _ (read_run _ _ _ (store_lookup_insert _ _ _))).
  change (λ row, row_set cWeighted_PV_TNB row
              (from_result NaN (py_mul (Prob row) (PV_TNB row))))
    with set_weighted.
  assert (set_weighted <$> t2 = work_row parse r mode <$> t) as ->.
  { subst t2 t1. by rewrite <-!list_fmap_compose. }
  erewrite M_bind_run.
  2:{ unfold lift. rewrite groupby_agg_run; [done|].
      apply Forall_fmap, Forall_forall. intros row _. by apply work_row_scored. }
  unfold mret, M_ret. by rewrite !insert_insert_eq.
Qed.

(** ** Sorting *)

Lemma filter_notna_float (l : list Agg) :
  Forall float_key l →
  filter (fun a => isna (agg_PV_ETNB a) = false) l = l
  ∧ filter (fun a => isna (agg_PV_ETNB a) = true) l = [].
Proof.
  induction 1 as [|a l [x Hx] _ [IH1 IH2]]; [done|]. unfold key in Hx. split.
  - rewrite filter_cons_True by by rewrite Hx. by rewrite IH1.
  - rewrite filter_cons_False by by rewrite Hx. done.
Qed.

Lemma sort_values_desc_float sorter l :
  Forall float_key l → sort_values_desc sorter l = sort_rows sorter l.
Proof.
  intros Hf. unfold sort_values_desc.
  destruct (filter_notna_float l Hf) as [-> ->]. by rewrite app_nil_r.
Qed.

Lemma sort_values_desc_perm sorter l :
  Forall float_key l → sort_values_desc sorter l ≡ₚ l.
Proof.
  intros Hf. rewrite sort_values_desc_float by done. apply sort_permutes.
Qed.

Lemma sort_values_desc_sorted sorter l :
  Forall float_key l → StronglySorted not_below (sort_values_desc sorter l).
Proof.
  intros Hf. rewrite sort_values_desc_float by done. by apply sort_descends.
Qed.

(** ** Groups and ranks *)

Lemma group_keys_perm t : group_keys t ≡ₚ remove_dups (Policy <$> t).
Proof. apply merge_sort_Permutation. Qed.

Lemma group_keys_length t :
  length (group_keys t) = length (remove_dups (Policy <$> t)).
Proof. by rewrite group_keys_perm. Qed.

Lemma StronglySorted_strict {A} (R : relation A) `{!AntiSymm (=) R} l :
  StronglySorted R l → NoDup l → StronglySorted (strict R) l.
Proof.
  induction 1 as [|x l Hs IH Hx]; intros Hnd; [constructor|].
  apply NoDup_cons in Hnd as [Hnx Hnd]. constructor; [by apply IH|].
  rewrite Forall_forall in Hx |- *. intros y Hy. split; [by apply Hx|].
  intros Hyx. assert (x = y) as -> by (apply (anti_symm R); auto). done.
Qed.

Lemma group_keys_sorted t : StronglySorted (strict String.le) (group_keys t).
Proof.
  apply StronglySorted_strict; [apply _| |].
  - apply StronglySorted_merge_sort; apply _.
  - rewrite group_keys_perm. apply NoDup_remove_dups.
Qed.

Lemma aggregate_policies t : agg_Policy <$> aggregate t = group_keys t.
Proof.
  unfold aggregate. rewrite <-list_fmap_compose.
  rewrite <-(list_fmap_id (group_keys t)) at 2. by apply list_fmap_ext.
Qed.

Lemma aggregate_float t : Forall float_key (aggregate t).
Proof.
  unfold aggregate. apply Forall_fmap, Forall_forall. intros k _.
  by eexists.
Qed.

Lemma assign_rank_lookup g i s :
  assign_rank g !! i = Some s ↔
  ∃ a, g !! i = Some a
       ∧ s = mkScore (agg_Policy a) (agg_PV_ETNB a) (agg_Prob_Sum a) (S i).
Proof.
  unfold assign_rank. rewrite lookup_zip_with_Some. split.
  - intros (a & k & -> & Ha & Hk). apply lookup_seq in Hk as [-> _]. eauto.
  - intros (a & Ha & ->). exists a, (S i). split_and!; [done..|].
    apply lookup_seq. split; [done|]. by eapply lookup_lt_Some.
Qed.

Lemma assign_rank_length g : length (assign_rank g) = length g.
Proof.
  unfold assign_rank. rewrite length_zip_with, length_seq. lia.
Qed.

Lemma assign_rank_ranks g : Rank <$> assign_rank g = seq 1 (length g).
Proof.
  apply list_eq. intros i. rewrite list_lookup_fmap.
  destruct (assign_rank g !! i) as [s|] eqn:E; simpl.
  - apply assign_rank_lookup in E as (a & Ha & ->). simpl.
    symmetry. apply lookup_seq. split; [done|]. by eapply lookup_lt_Some.
  - symmetry. apply lookup_ge_None. rewrite length_seq.
    apply lookup_ge_None in E. by rewrite assign_rank_length in E.
Qed.

Lemma assign_rank_policies g : score_Policy <$> assign_rank g = agg_Policy <$> g.
Proof.
  apply list_eq. intros i. rewrite !list_lookup_fmap.
  destruct (assign_rank g !! i) as [s|] eqn:E; simpl.
  - apply assign_rank_lookup in E as (a & Ha & ->). by rewrite Ha.
  - apply lookup_ge_None in E. rewrite assign_rank_length in E.
    apply lookup_ge_None in E. by rewrite E.
Qed.

(** ** Which objects a computation writes *)

Lemma writes_only_ret {A} l (a : A) : writes_only l (mret a).
Proof. by intros σ l' _. Qed.

Lemma writes_only_lift {A} l (m : result A) : writes_only l (lift m).
Proof. by intros σ l' _. Qed.

Lemma writes_only_bind {A B} l (m : M A) (k : A → M B) :
  writes_only l m → (∀ a, writes_only l (k a)) → writes_only l (x ← m; k x).
Proof.
  intros Hm Hk σ l' Hl. unfold mbind, M_bind.
  specialize (Hm σ l' Hl). destruct (m σ) as [[a|e] σ']; simpl in *; [|done].
  by rewrite (Hk a σ' l' Hl).
Qed.

Lemma writes_only_read l l0 : writes_only l (read l0).
Proof. intros σ l' _. unfold read. by destruct (σ !! l0). Qed.

Lemma writes_only_write l t : writes_only l (write l t).
Proof. intros σ l' Hl. unfold write. simpl. by rewrite lookup_insert_ne. Qed.

Lemma writes_only_getitem l l0 c : writes_only l (getitem l0 c).
Proof.
  apply writes_only_bind; [apply writes_only_read|].
  intros. apply writes_only_lift.
Qed.

Lemma writes_only_apply_rows l l0 f : writes_only l (apply_rows l0 f).
Proof.
  apply writes_only_bind; [apply writes_only_read|].
  intros. apply writes_only_lift.
Qed.

Lemma writes_only_setitem l c col : writes_only l (setitem l c col).
Proof.
  apply writes_only_bind; [apply writes_only_read|].
  intros t. destruct (decide _); [apply writes_only_write|apply writes_only_lift].
Qed.

Lemma writes_only_for_each {A} l (xs : list A) body :
  (∀ x, writes_only l (body x)) → writes_only l (for_each xs body).
Proof.
  intros Hb. induction xs as [|x xs IH]; simpl; [apply writes_only_ret|].
  apply writes_only_bind; [apply Hb|]. by intros.
Qed.

Create HintDb frame discriminated.
#[export] Hint Resolve writes_only_ret writes_only_lift writes_only_read
  writes_only_write writes_only_getitem writes_only_setitem
  writes_only_apply_rows : frame.

Ltac frame_step :=
  first
    [ solve [auto with frame]
    | apply writes_only_for_each; intros ?
    | apply writes_only_bind; [|intros ?] ].

Lemma copy_fresh (σ : store) df l σ' :
  copy df σ = (Ok l, σ') → l ≠ df ∧ σ' !! df = σ !! df.
Proof.
  unfold copy. destruct (σ !! df) as [t|] eqn:H; [|done].
  intros [= <- <-].
  assert (fresh (dom σ) ≠ df) as Hne.
  { intros E. apply (is_fresh (dom σ)). rewrite E. apply elem_of_dom. eauto. }
  split; [done|]. by rewrite lookup_insert_ne.
Qed.

Lemma copy_raise_keeps (σ : store) df e σ' : copy df σ = (Raise e, σ') → σ' = σ.
Proof. unfold copy. destruct (σ !! df); [done|]. by intros [= _ <-]. Qed.

(** C10: [compute_policy_scores] leaves the caller's table as it was, for
    every store, table, rate and mode, also when it raises: all its writes
    go to the copy it makes first. *)
Theorem compute_policy_scores_keeps_input parse sorter (σ : store) df r mode :
  (compute_policy_scores parse sorter df r mode σ).2 !! df = σ !! df.
Proof.
  unfold compute_policy_scores. unfold mbind at 1. unfold M_bind at 1.
  destruct (copy df σ) as [[w|e] σ1] eqn:Hc.
  - apply copy_fresh in Hc as [Hne <-].
    match goal with |- (?m σ1).2 !! _ = _ => assert (writes_only w m) as Hw end.
    { destruct (String.eqb mode _); repeat frame_step. }
    by apply Hw.
  - by rewrite (copy_raise_keeps _ _ _ _ Hc).
Qed.

Lemma py_add_nan x y :
  numeric x → numeric y → x = NaN ∨ y = NaN → py_add x y = Ok NaN.
Proof. destruct x, y; simpl; intros ? ? [?|?]; done. Qed.

Lemma py_mul_nan x y :
  numeric x → numeric y → x = NaN ∨ y = NaN → py_mul x y = Ok NaN.
Proof. destruct x, y; simpl; intros ? ? [?|?]; done. Qed.

Lemma pv_fold_nan B r a l :
  1 + r ≠ 0 → Forall numeric B → numeric a →
  Forall (fun i => (i < length B)%nat) l →
  a = NaN ∨ (∃ i, i ∈ l ∧ B !! i = Some NaN) →
  foldl (pv_step B r) (Ok a) l = Ok NaN.
Proof.
  intros Hr HB. revert a. induction l as [|i l IH]; intros a Ha Hl Hnan.
  - destruct Hnan as [->|(i & Hi & _)]; [done|]. by apply elem_of_nil in Hi.
  - apply Forall_cons in Hl as [Hi Hl]. cbn [foldl].
    destruct (lookup_lt_is_Some_2 B i Hi) as [b Hb].
    assert (numeric b) as Hnb by (eapply Forall_lookup_1; eauto).
    destruct (py_truediv_numeric b ((1 + r) ^ i) Hnb) as (q & Hq & Hnq);
      [by apply Qcpower_nonzero|].
    destruct (py_add_numeric a q Ha Hnq) as (s & Hs & Hns).
    assert (pv_step B r (Ok a) i = Ok s) as ->.
    { unfold pv_step, py_index. rewrite Hb. simpl. rewrite Hq. simpl. done. }
    apply IH; [done..|].
    destruct Hnan as [->|(j & Hj & HBj)].
    + left. rewrite py_add_nan in Hs by auto. congruence.
    + apply elem_of_cons in Hj as [->|Hj]; [|right; eauto].
      left. assert (b = NaN) as -> by congruence.
      assert (q = NaN) as ->.
      { simpl in Hq. destruct (decide _); congruence. }
      rewrite py_add_nan in Hs by auto. congruence.
Qed.

Lemma pv_stream_nan B r :
  1 + r ≠ 0 → Forall numeric B → NaN ∈ B → pv_stream B r = Ok NaN.
Proof.
  intros Hr HB Hn. apply pv_fold_nan; [done..| |].
  - apply Forall_forall. intros i Hi. apply elem_of_seq in Hi. lia.
  - right. apply list_elem_of_lookup in Hn as [i Hi]. exists i. split; [|done].
    apply elem_of_seq. apply lookup_lt_Some in Hi. lia.
Qed.

Lemma direct_true mode :
  direct mode = true ↔ mode = "Enter PV(TNB) directly".
Proof. apply String.eqb_eq. Qed.

Lemma usable_rate r mode :
  mode = "Enter PV(TNB) directly" ∨ 1 + r ≠ 0 → direct mode = true ∨ 1 + r ≠ 0.
Proof. intros [H|H]; [left; by apply direct_true|by right]. Qed.

Lemma work_rows_from parse r mode t :
  direct mode = true ∨ 1 + r ≠ 0 →
  Forall2 (fun row row' =>
      Policy row' = Policy row ∧ Outcome row' = Outcome row
      ∧ Prob row' = coerce parse (Prob row)
      ∧ (if direct mode then PV_TNB row' = coerce parse (PV_TNB row)
         else pv_stream [coerce parse (B0 row); coerce parse (B1 row);
                         coerce parse (B2 row); coerce parse (B3 row)] r
              = Ok (PV_TNB row'))
      ∧ scored row')
    t (work_row parse r mode <$> t).
Proof.
  intros Hm. apply Forall2_fmap_r, Forall_Forall2_diag, Forall_forall.
  intros row _. destruct (work_row_frame parse r mode row) as (? & ? & ?).
  split_and!; [done..| |by apply work_row_scored].
  destruct (direct mode) eqn:E.
  - by apply work_row_direct.
  - destruct Hm as [|Hr]; [done|]. by apply work_row_stream.
Qed.

(** ** The scores table *)

Lemma StronglySorted_lookup_lt {A} (R : relation A) l i j x y :
  StronglySorted R l → (i < j)%nat → l !! i = Some x → l !! j = Some y → R x y.
Proof.
  intros Hs. revert i j. induction Hs as [|z l Hs IH Hz]; intros i j Hij Hi Hj.
  { by rewrite lookup_nil in Hi. }
  destruct j as [|j]; [lia|]. destruct i as [|i]; simpl in *.
  - simplify_eq. rewrite Forall_forall in Hz. apply Hz.
    by eapply list_elem_of_lookup_2.
  - apply (IH i j); [lia|done..].
Qed.

Lemma sorted_aggs_perm sorter work : sorted_aggs sorter work ≡ₚ aggregate work.
Proof. apply sort_values_desc_perm, aggregate_float. Qed.

Lemma sorted_aggs_sorted sorter work :
  StronglySorted not_below (sorted_aggs sorter work).
Proof. apply sort_values_desc_sorted, aggregate_float. Qed.

Lemma sorted_aggs_elem sorter work a :
  a ∈ sorted_aggs sorter work → a = agg_of work (agg_Policy a).
Proof.
  rewrite sorted_aggs_perm. unfold aggregate.
  by intros (k & -> & _)%list_elem_of_fmap.
Qed.

Lemma scores_policies sorter work :
  score_Policy <$> assign_rank (sorted_aggs sorter work)
  ≡ₚ remove_dups (Policy <$> work).
Proof.
  rewrite assign_rank_policies, sorted_aggs_perm, aggregate_policies.
  apply group_keys_perm.
Qed.

Lemma scores_totals sorter work :
  Forall (policy_totals work) (assign_rank (sorted_aggs sorter work)).
Proof.
  apply Forall_forall. intros s (i & Hi)%list_elem_of_lookup.
  apply assign_rank_lookup in Hi as (a & Ha & ->).
  apply list_elem_of_lookup_2, sorted_aggs_elem in Ha.
  unfold policy_totals. simpl. by rewrite Ha.
Qed.

Lemma not_below_pv_ge a a' k k' :
  float_key a → float_key a' → not_below a a' →
  pv_ge (mkScore (agg_Policy a) (agg_PV_ETNB a) (agg_Prob_Sum a) k)
        (mkScore (agg_Policy a') (agg_PV_ETNB a') (agg_Prob_Sum a') k').
Proof.
  intros [x Hx] [y Hy] H. exists x, y. split_and!; [done..|].
  unfold not_below in H. rewrite Hx, Hy in H. simpl in H.
  by apply bool_decide_eq_false, Qcnot_lt_le in H.
Qed.

Lemma sorted_aggs_float sorter work a : a ∈ sorted_aggs sorter work → float_key a.
Proof.
  rewrite sorted_aggs_perm. intros Ha.
  pose proof (aggregate_float work) as Hf. rewrite Forall_forall in Hf. auto.
Qed.

Lemma scores_descending sorter work i j s s' :
  (i < j)%nat →
  assign_rank (sorted_aggs sorter work) !! i = Some s →
  assign_rank (sorted_aggs sorter work) !! j = Some s' →
  pv_ge s s'.
Proof.
  intros Hij (a & Ha & ->)%assign_rank_lookup (a' & Ha' & ->)%assign_rank_lookup.
  apply not_below_pv_ge.
  - eapply sorted_aggs_float, list_elem_of_lookup_2, Ha.
  - eapply sorted_aggs_float, list_elem_of_lookup_2, Ha'.
  - eapply StronglySorted_lookup_lt; [apply sorted_aggs_sorted|done..].
Qed.

Lemma work_policies parse r mode (t : DataFrame) :
  Policy <$> (work_row parse r mode <$> t) = Policy <$> t.
Proof.
  rewrite <-list_fmap_compose. apply list_fmap_ext. intros _ row _.
  apply work_row_frame.
Qed.

Lemma fresh_unused (σ : store) : σ !! fresh (dom σ) = None.
Proof. apply not_elem_of_dom, is_fresh. Qed.

Lemma fifty_not_below_thirty : ¬ num 50 ≤ num 30.
Proof. intros H. vm_compute in H. by apply H. Qed.

(** ** Policy scores *)

Lemma coerce_reads_as parse v : reads_as parse v (coerce parse v).
Proof.
  destruct v as [x| |s]; simpl; [constructor..|].
  destruct (parse s) eqn:E; by constructor.
Qed.

Lemma scored_weighted_by row :
  scored row →
  ∃ w, Weighted_PV_TNB row = Some w ∧ weighted_by (Prob row) (PV_TNB row) w.
Proof.
  intros (Hp & Hv & w & Hw & Hmul & _). exists w. split; [done|].
  destruct (Prob row) as [p| |], (PV_TNB row) as [v| |];
    simpl in *; try done; simplify_eq;
    first [by constructor | apply weighted_missing; simpl; auto].
Qed.

Lemma numeric_floats_or_nan (B : list value) :
  Forall numeric B → NaN ∈ B ∨ ∃ B', B = Float <$> B'.
Proof.
  induction 1 as [|v B Hv _ [IH|[B' ->]]].
  - right. by exists [].
  - left. by right.
  - destruct v as [x| |]; [|left; by left|done]. right. by exists (x :: B').
Qed.

Lemma pv_stream_discounted B r v :
  1 + r ≠ 0 → Forall numeric B → pv_stream B r = Ok v → discounted r B v.
Proof.
  intros Hr HB Hv. destruct (numeric_floats_or_nan B HB) as [Hn|[B' ->]].
  - rewrite pv_stream_nan in Hv by done. simplify_eq. by constructor.
  - assert (pv_stream (Float <$> B') r = Ok (Float (present_value B' r))) as E.
    { unfold pv_stream, present_value, range. rewrite length_fmap.
      by apply pv_prefix. }
    rewrite E in Hv. simplify_eq. constructor.
Qed.

Lemma expected_value_groups k (work : DataFrame) :
  Forall scored work →
  expected_value k work
  = skipna_sum (cell cWeighted_PV_TNB <$> group_rows k work).
Proof.
  unfold group_rows, DataFrame.
  induction 1 as [|row work Hrow _ IH]; [done|]. cbn [expected_value foldr].
  fold (expected_value k work). destruct (decide (Policy row = k)) as [E|E].
  - rewrite filter_cons_True, fmap_cons by done. cbn [skipna_sum foldr].
    fold (skipna_sum (cell cWeighted_PV_TNB <$> filter (λ row, Policy row = k) work)).
    rewrite <-IH. destruct Hrow as (Hp & Hv & w & Hw & Hmul & _).
    unfold cell. simpl. rewrite Hw. simpl.
    destruct (Prob row) as [p| |], (PV_TNB row) as [v| |];
      simpl in *; try done; simplify_eq; simpl; ring.
  - by rewrite filter_cons_False by done.
Qed.

Lemma probability_mass_groups k (work : DataFrame) :
  probability_mass k work = skipna_sum (Prob <$> group_rows k work).
Proof.
  unfold group_rows, DataFrame.
  induction work as [|row work IH]; [done|]. cbn [probability_mass foldr].
  fold (probability_mass k work). destruct (decide (Policy row = k)) as [E|E].
  - rewrite filter_cons_True, fmap_cons by done. cbn [skipna_sum foldr].
    fold (skipna_sum (Prob <$> filter (λ row, Policy row = k) work)).
    rewrite <-IH. destruct (Prob row); simpl; ring.
  - by rewrite filter_cons_False by done.
Qed.

Lemma scores_sums sorter parse r mode (t : DataFrame) :
  direct mode = true ∨ 1 + r ≠ 0 →
  let work := work_row parse r mode <$> t in
  Forall (fun s =>
      PV_ETNB s = Float (expected_value (score_Policy s) work)
      ∧ Prob_Sum s = Float (probability_mass (score_Policy s) work))
    (assign_rank (sorted_aggs sorter work)).
Proof.
  intros Hm work. eapply Forall_impl; [apply scores_totals|].
  intros s [HPV HP]. rewrite expected_value_groups, probability_mass_groups.
  - done.
  - apply Forall_fmap, Forall_forall. intros row _. by apply work_row_scored.
Qed.

(** C2: on a session table [t], in either mode, [compute_policy_scores]
    returns a scores table and a working copy such that: every row of the
    copy keeps its Policy; its Prob is the entry read as a number; its
    PV_TNB is the entry read as a number (direct mode) or the discounted sum
    Σ B_i / (1+r)^i of B0..B3 read as numbers (stream mode); its
    Weighted_PV_TNB is Prob × PV_TNB; the scores table has one row per
    distinct Policy; PV_ETNB of a policy is Σ Prob × PV_TNB and Prob_Sum is
    Σ Prob over the rows of that policy; the rows are in descending order
    of PV_ETNB; the k-th row has Rank k, counting from 1, so that Rank 1
    has the highest PV_ETNB; and of two policies with PV_ETNB 50 and 30 the
    one with 50 has Rank 1.  This holds whatever the sorting routine does
    with equal keys.  The rate is any [r] with [1 + r <> 0] (so any
    [r >= 0]); direct mode needs nothing of [r]. *)
Theorem compute_policy_scores_ranks_policies
    parse sorter (σ : store) df (t : DataFrame) r mode :
  σ !! df = Some t →
  mode = "Enter PV(TNB) directly" ∨ 1 + r ≠ 0 →
  ∃ scores w work,
    compute_policy_scores parse sorter df r mode σ
    = (Ok (scores, w), <[w := work]> σ)
    ∧ σ !! w = None
    ∧ Forall2 (fun row row' =>
        Policy row' = Policy row
        ∧ reads_as parse (Prob row) (Prob row')
        ∧ (mode = "Enter PV(TNB) directly" →
           reads_as parse (PV_TNB row) (PV_TNB row'))
        ∧ (mode ≠ "Enter PV(TNB) directly" →
           ∃ B, Forall2 (reads_as parse) [B0 row; B1 row; B2 row; B3 row] B
                ∧ discounted r B (PV_TNB row'))
        ∧ ∃ v, Weighted_PV_TNB row' = Some v
               ∧ weighted_by (Prob row') (PV_TNB row') v) t work
    ∧ score_Policy <$> scores ≡ₚ remove_dups (Policy <$> t)
    ∧ Forall (fun s =>
        PV_ETNB s = Float (expected_value (score_Policy s) work)
        ∧ Prob_Sum s = Float (probability_mass (score_Policy s) work)) scores
    ∧ (∀ i j s s', (i < j)%nat →
         scores !! i = Some s → scores !! j = Some s' → pv_ge s s')
    ∧ (∀ k s, scores !! k = Some s → Rank s = S k)
    ∧ (∀ s s', s ∈ scores → s' ∈ scores → Rank s = 1%nat → pv_ge s s')
    ∧ (∀ s s', scores ≡ₚ [s; s'] →
         PV_ETNB s = Float (num 50) → PV_ETNB s' = Float (num 30) →
         Rank s = 1%nat).
Proof.
  intros Hdf Hm%usable_rate.
  eexists _, _, _. split; [by apply compute_policy_scores_run|].
  fold (sorted_aggs sorter (work_row parse r mode <$> t)).
  set (work := work_row parse r mode <$> t).
  assert (∀ i j s s', (i < j)%nat →
    assign_rank (sorted_aggs sorter work) !! i = Some s →
    assign_rank (sorted_aggs sorter work) !! j = Some s' → pv_ge s s') as Hdesc
    by (intros; by eapply scores_descending).
  assert (∀ k s, assign_rank (sorted_aggs sorter work) !! k = Some s →
                 Rank s = S k)
    as Hrank by (by intros k s (a & _ & ->)%assign_rank_lookup).
  split_and!; [apply fresh_unused| | |by apply scores_sums|done|done| |].
  - eapply Forall2_impl; [by apply work_rows_from|].
    intros row row' (HP & _ & Hp & Hv & Hs).
    split_and!; [done| | | |by apply scored_weighted_by].
    + rewrite Hp. apply coerce_reads_as.
    + intros Hd%direct_true. rewrite Hd in Hv. rewrite Hv.
      apply coerce_reads_as.
    + intros Hmode. destruct (direct mode) eqn:E;
        [by apply direct_true in E|]. destruct Hm as [|Hr]; [done|].
      eexists. split; [|apply pv_stream_discounted; [done| |exact Hv]].
      * repeat constructor; apply coerce_reads_as.
      * repeat constructor; apply coerce_numeric.
  - rewrite scores_policies. subst work. by rewrite work_policies.
  - intros s s' (i & Hi)%list_elem_of_lookup (j & Hj)%list_elem_of_lookup H1.
    rewrite (Hrank i s Hi) in H1. assert (i = 0%nat) as -> by lia.
    destruct j as [|j]; [|apply (Hdesc 0%nat (S j)); [lia|done..]].
    simplify_eq. apply assign_rank_lookup in Hi as (a & Ha & ->).
    destruct (sorted_aggs_float sorter work a) as [x Hx];
      [by eapply list_elem_of_lookup_2|].
    exists x, x. split_and!; [done..|apply Qcle_refl].
  - intros s s' Hp H50 H30. symmetry in Hp.
    apply Permutation_length_2_inv in Hp as [Hs|Hs].
    + apply (Hrank 0%nat). by rewrite Hs.
    + assert (pv_ge s' s) as (x & y & Hx & Hy & Hle).
      { apply (Hdesc 0%nat 1%nat); [lia|by rewrite Hs..]. }
      rewrite H30 in Hx. rewrite H50 in Hy. simplify_eq.
      by destruct fifty_not_below_thirty.
Qed.

(** C9: the Rank column of the returned scores table is exactly
    1, 2, ..., N, where N is the number of distinct Policy values of the
    input table. *)
Theorem ranks_are_one_to_n parse sorter (σ : store) df (t : DataFrame) r mode :
  σ !! df = Some t →
  mode = "Enter PV(TNB) directly" ∨ 1 + r ≠ 0 →
  ∃ scores w σ',
    compute_policy_scores parse sorter df r mode σ = (Ok (scores, w), σ')
    ∧ Rank <$> scores = seq 1 (length (remove_dups (Policy <$> t))).
Proof.
  intros Hdf Hm%usable_rate.
  eexists _, _, _. split; [by apply compute_policy_scores_run|].
  fold (sorted_aggs sorter (work_row parse r mode <$> t)).
  rewrite assign_rank_ranks, sorted_aggs_perm. unfold aggregate.
  by rewrite length_fmap, group_keys_length, work_policies.
Qed.

(** C5, as amended: with non-numeric entries in the table the function
    still returns; such an entry is coerced to NaN; a row with a NaN Prob
    or PV_TNB (in stream mode: with a NaN among its coerced B0..B3) has a
    NaN Weighted_PV_TNB; and the aggregates skip the NaN entries, so that
    PV_ETNB and Prob_Sum of every policy are numbers, the sums over the
    entries that are left. *)
Theorem non_numeric_entries_are_skipped
    parse sorter (σ : store) df (t : DataFrame) r mode :
  σ !! df = Some t →
  mode = "Enter PV(TNB) directly" ∨ 1 + r ≠ 0 →
  ∃ scores w work,
    compute_policy_scores parse sorter df r mode σ = (Ok (scores, w), <[w := work]> σ)
    ∧ (∀ s, parse s = None → coerce parse (Str s) = NaN)
    ∧ Forall2 (fun row row' =>
        Prob row' = coerce parse (Prob row)
        ∧ (if direct mode then PV_TNB row' = coerce parse (PV_TNB row)
           else NaN ∈ [coerce parse (B0 row); coerce parse (B1 row);
                       coerce parse (B2 row); coerce parse (B3 row)] →
                PV_TNB row' = NaN)
        ∧ (Prob row' = NaN ∨ PV_TNB row' = NaN →
           Weighted_PV_TNB row' = Some NaN)) t work
    ∧ Forall (fun s => policy_totals work s
                       ∧ PV_ETNB s ≠ NaN ∧ Prob_Sum s ≠ NaN) scores.
Proof.
  intros Hdf Hm%usable_rate.
  eexists _, _, _. split; [by apply compute_policy_scores_run|].
  fold (sorted_aggs sorter (work_row parse r mode <$> t)).
  split_and!.
  - intros s Hs. simpl. by rewrite Hs.
  - eapply Forall2_impl; [by apply work_rows_from|].
    intros row row' (_ & _ & HP & HV & Hp & Hv & w & Hw & Hmul & _).
    split_and!; [done| |].
    + destruct (direct mode); [done|]. intros Hnan.
      destruct Hm as [|Hr]; [done|].
      rewrite pv_stream_nan in HV; [congruence|done| |done].
      repeat constructor; apply coerce_numeric.
    + intros Hnan. rewrite py_mul_nan in Hmul by done. congruence.
  - eapply Forall_impl; [apply scores_totals|].
    intros s [H1 H2]. split_and!; [done| |]; congruence.
Qed.

(** ** The resource solver *)

(** Closed facts on rationals and on structures that hold them are decided
    by evaluation. *)
Ltac by_evaluation :=
  match goal with
  | |- ?P => apply (bool_decide_unpack P); vm_compute; exact I
  end.

(** C3, as amended: for every input with b > 0, 2 + r <> 0 and 1 + r <> 0
    the tab shows q1 = (r (a - mc) + b Q) / (b (2 + r)), q2 = Q - q1,
    P1 = a - b q1, P2 = a - b q2 and the check line, and these satisfy
    q1 + q2 = Q and P1 - mc = (P2 - mc) / (1 + r). *)
Theorem resource_solver_closed_form (a b mc r Q : Qc) :
  0 < b → 2 + r ≠ 0 → 1 + r ≠ 0 →
  let q1 := q1_closed_form a b mc r Q in
  let q2 := Q - q1 in
  let P1 := a - b * q1 in
  let P2 := a - b * q2 in
  depletable_resource_tab a b mc r Q blank
  = (Ok tt,
     mkPage [st_write "### Solution"; st_metric "q1*" q1; st_metric "q2*" q2;
             st_write_prices P1 P2;
             st_caption_check (P1 - mc) ((P2 - mc) / (1 + r))]
            [b * (2 + r); 1 + r])
  ∧ q1 + q2 = Q
  ∧ P1 - mc = (P2 - mc) / (1 + r).
Proof.
  intros Hb Hr Hr1. split; [by apply tab_solves|].
  apply closed_form_efficient; [|done..].
  intros ->. by apply (irreflexivity Qclt 0).
Qed.

Lemma resource_solver_closed_form_witness :
  (0 < frac 2 5 ∧ 2 + frac 1 10 ≠ 0 ∧ 1 + frac 1 10 ≠ 0)
  ∧ let a := num 8 in
    let b := frac 2 5 in
    let mc := num 2 in
    let r := frac 1 10 in
    let Q := num 20 in
    let q1 := q1_closed_form a b mc r Q in
    let q2 := Q - q1 in
    let P1 := a - b * q1 in
    let P2 := a - b * q2 in
    depletable_resource_tab a b mc r Q blank
    = (Ok tt,
       mkPage [st_write "### Solution"; st_metric "q1*" q1; st_metric "q2*" q2;
               st_write_prices P1 P2;
               st_caption_check (P1 - mc) ((P2 - mc) / (1 + r))]
              [b * (2 + r); 1 + r])
    ∧ q1 + q2 = Q
    ∧ P1 - mc = (P2 - mc) / (1 + r).
Proof.
  assert (0 < frac 2 5) as H1 by by_evaluation.
  assert (2 + frac 1 10 ≠ 0) as H2 by by_evaluation.
  assert (1 + frac 1 10 ≠ 0) as H3 by by_evaluation.
  split; [done|].
  exact (resource_solver_closed_form
           (num 8) (frac 2 5) (num 2) (frac 1 10) (num 20) H1 H2 H3).
Defined.

(** At r = -2 the divisor b (2 + r) is zero although b > 0 and 1 + r <> 0:
    the division raises and the tab shows nothing. *)
Lemma resource_solver_fails_at_minus_two :
  0 < frac 2 5 ∧ 1 + num (-2) ≠ 0
  ∧ depletable_resource_tab (num 8) (frac 2 5) (num 2) (num (-2)) (num 20) blank
    = (Raise ZeroDivisionError, mkPage [] [0]).
Proof. split_and!; by_evaluation. Qed.

Lemma no_error_in_solution a b mc r Q msg :
  st_error msg ∉ solution_outputs_of a b mc r Q.
Proof.
  unfold solution_outputs_of. intros H.
  repeat (apply elem_of_cons in H as [H|H]; [discriminate|]).
  by apply elem_of_nil in H.
Qed.

(** C4, as amended: the tab reports an error exactly when b <= 0; in that
    case the error is all it shows and no division is evaluated; for b > 0
    it reports no error and, when 2 + r <> 0, shows the solution. *)
Theorem resource_tab_error_iff_nonpositive_slope (a b mc r Q : Qc) :
  let out := depletable_resource_tab a b mc r Q blank in
  ((∃ msg, st_error msg ∈ shown out.2) ↔ b ≤ 0)
  ∧ (b ≤ 0 → out = (Ok tt, mkPage [st_error "b must be > 0"] []))
  ∧ (0 < b → 2 + r ≠ 0 →
     ∃ rest, shown out.2 = solution_outputs_of a b mc r Q ++ rest).
Proof.
  cbn zeta. destruct (Qclt_le_dec 0 b) as [Hb|Hb].
  - assert (¬ b ≤ 0) as Hnb by by apply Qclt_not_le.
    destruct (decide (2 + r = 0)) as [Hr|Hr].
    { rewrite tab_first_division_fails by done. cbn [snd shown]. split_and!; [|done..].
      split; [|done]. intros [msg Hmsg]. by apply elem_of_nil in Hmsg. }
    destruct (decide (1 + r = 0)) as [Hr1|Hr1].
    + rewrite tab_check_fails by done. cbn [snd shown]. split_and!; [|done|].
      * split; [|done]. intros [msg Hmsg]. by apply no_error_in_solution in Hmsg.
      * intros _ _. by exists [].
    + rewrite tab_solves by done. cbn [snd shown]. split_and!; [|done|].
      * split; [|done]. intros [msg Hmsg].
        apply elem_of_app in Hmsg as [Hmsg|Hmsg];
          [by apply no_error_in_solution in Hmsg|].
        apply elem_of_cons in Hmsg as [Hmsg|Hmsg]; [done|].
        by apply elem_of_nil in Hmsg.
      * intros _ _. by eexists.
  - rewrite tab_nonpositive by done. cbn [snd shown]. split_and!; [|done|].
    + split; [done|]. intros _. eexists. by left.
    + intros Hlt. by destruct (Qclt_not_le _ _ Hlt).
Qed.

Lemma resource_tab_error_iff_nonpositive_slope_witness :
  (num (-1) ≤ 0
   ∧ depletable_resource_tab (num 8) (num (-1)) (num 2) (frac 1 10) (num 20) blank
     = (Ok tt, mkPage [st_error "b must be > 0"] []))
  ∧ (0 < frac 2 5 ∧ 2 + frac 1 10 ≠ 0
     ∧ ∃ rest,
         shown (depletable_resource_tab (num 8) (frac 2 5) (num 2) (frac 1 10)
                  (num 20) blank).2
         = solution_outputs_of (num 8) (frac 2 5) (num 2) (frac 1 10) (num 20)
           ++ rest).
Proof.
  assert (num (-1) ≤ 0) as H0 by by_evaluation.
  assert (0 < frac 2 5) as H1 by by_evaluation.
  assert (2 + frac 1 10 ≠ 0) as H2 by by_evaluation.
  split.
  - split; [done|].
    exact (proj1 (proj2 (resource_tab_error_iff_nonpositive_slope
             (num 8) (num (-1)) (num 2) (frac 1 10) (num 20))) H0).
  - split_and!; [done..|].
    exact (proj2 (proj2 (resource_tab_error_iff_nonpositive_slope
             (num 8) (frac 2 5) (num 2) (frac 1 10) (num 20))) H1 H2).
Defined.

(** With b > 0 and r = -2 the tab shows no solution: the division by
    b (2 + r) raises before anything is written. *)
Lemma resource_tab_no_solution_at_minus_two :
  0 < 1
  ∧ depletable_resource_tab 1 1 0 (num (-2)) 1 blank
    = (Raise ZeroDivisionError, mkPage [] [0]).
Proof. split_and!; by_evaluation. Qed.

(** ** The claims at sample inputs *)

(** The specification's example: B = [100, 100, 100, 100] at r = 0. *)
Example pv_stream_four_hundred :
  pv_stream [Float (num 100); Float (num 100); Float (num 100);
             Float (num 100)] 0
  = Ok (Float (num 400)).
Proof. by_evaluation. Qed.

Lemma pv_stream_is_discounted_sum_witness :
  0 ≤ frac 7 100
  ∧ pv_stream (Float <$> [num 100; num 200; num 300]) (frac 7 100)
    = Ok (Float (present_value [num 100; num 200; num 300] (frac 7 100))).
Proof.
  assert (0 ≤ frac 7 100) as H by by_evaluation.
  split; [done|]. exact (pv_stream_is_discounted_sum _ _ H).
Defined.

Lemma session_lookup (t : DataFrame) : session t !! 1%positive = Some t.
Proof. apply lookup_singleton_eq. Qed.

Lemma session_fresh (t : DataFrame) : fresh (dom (session t)) = 2%positive.
Proof. unfold session. by rewrite dom_singleton_L. Qed.

Lemma scores_on_session parse sorter r mode (t : DataFrame) :
  direct mode = true ∨ 1 + r ≠ 0 →
  (compute_policy_scores parse sorter 1%positive r mode (session t)).1
  = Ok (assign_rank (sorted_aggs sorter (work_row parse r mode <$> t)),
        2%positive).
Proof.
  intros Hm.
  rewrite (compute_policy_scores_run parse sorter _ _ t r mode
             (session_lookup t) Hm).
  cbn [fst]. by rewrite session_fresh.
Qed.

(** What every sorting routine does with one row, and with two rows of
    different keys. *)
Lemma sort_values_desc_singleton sorter a :
  float_key a → sort_values_desc sorter [a] = [a].
Proof.
  intros Ha. apply Permutation_singleton_r, sort_values_desc_perm.
  by constructor.
Qed.

Lemma sort_values_desc_two sorter a b x y :
  agg_PV_ETNB a = Float x → agg_PV_ETNB b = Float y → y < x →
  sort_values_desc sorter [a; b] = [a; b]
  ∧ sort_values_desc sorter [b; a] = [a; b].
Proof.
  intros Ha Hb Hlt.
  assert (Forall float_key [a; b]) as Hab by (repeat constructor; by eexists).
  assert (Forall float_key [b; a]) as Hba by (repeat constructor; by eexists).
  assert (∀ l, l ≡ₚ [a; b] → StronglySorted not_below l → l = [a; b]) as Hl.
  { intros l Hp Hs. symmetry in Hp.
    apply Permutation_length_2_inv in Hp as [->| ->]; [done|].
    apply StronglySorted_inv in Hs as [_ Hs]. apply Forall_cons in Hs as [Hs _].
    unfold not_below, key in Hs. rewrite Ha, Hb in Hs. simpl in Hs.
    by apply bool_decide_eq_false in Hs. }
  split; apply Hl.
  - by apply sort_values_desc_perm.
  - by apply sort_values_desc_sorted.
  - rewrite sort_values_desc_perm by done. apply Permutation_swap.
  - by apply sort_values_desc_sorted.
Qed.

Lemma compute_policy_scores_ranks_policies_witness :
  session weighted_policies !! 1%positive = Some weighted_policies
  ∧ ∃ scores w work,
      compute_policy_scores no_parse insertion_sort 1%positive 0
        "Enter PV(TNB) directly" (session weighted_policies)
      = (Ok (scores, w), <[w := work]> (session weighted_policies))
      ∧ Forall (fun s =>
          PV_ETNB s = Float (expected_value (score_Policy s) work)
          ∧ Prob_Sum s = Float (probability_mass (score_Policy s) work)) scores
      ∧ (∀ k s, scores !! k = Some s → Rank s = S k).
Proof.
  pose proof (session_lookup weighted_policies) as H1.
  split; [done|].
  destruct (compute_policy_scores_ranks_policies no_parse insertion_sort _ _ _ 0
              "Enter PV(TNB) directly" H1 (or_introl eq_refl))
    as (scores & w & work & Hrun & _ & _ & _ & Hsum & _ & Hrank & _).
  exists scores, w, work. split_and!; assumption.
Defined.

(** Policy A, with 1/2 × 40 + 1/2 × 60 = 50, is ranked first and policy B,
    with 1/4 × 60 + 3/4 × 20 = 30, second, whatever the sorting routine. *)
Example weighted_policies_scores sorter :
  (compute_policy_scores no_parse sorter 1%positive 0 "Enter PV(TNB) directly"
     (session weighted_policies)).1
  = Ok ([mkScore "A" (Float (num 50)) (Float 1) 1;
         mkScore "B" (Float (num 30)) (Float 1) 2], 2%positive).
Proof.
  rewrite scores_on_session by (by left). unfold sorted_aggs.
  assert (aggregate (work_row no_parse 0 "Enter PV(TNB) directly"
                       <$> weighted_policies)
          = [mkAgg "A" (Float (num 50)) (Float 1);
             mkAgg "B" (Float (num 30)) (Float 1)]) as -> by by_evaluation.
  assert (num 30 < num 50) as Hlt by by_evaluation.
  by rewrite (proj1 (sort_values_desc_two sorter
                       (mkAgg "A" (Float (num 50)) (Float 1))
                       (mkAgg "B" (Float (num 30)) (Float 1))
                       (num 50) (num 30) eq_refl eq_refl Hlt)).
Qed.

(** The policy with PV_ETNB 50 is ranked first, the one with 30 second,
    though it comes second in the table and in the order of the groups. *)
Example fifty_ranks_before_thirty sorter :
  (compute_policy_scores no_parse sorter 1%positive 0 "Enter PV(TNB) directly"
     (session two_policies)).1
  = Ok ([mkScore "B" (Float (num 50)) (Float 1) 1;
         mkScore "A" (Float (num 30)) (Float 1) 2], 2%positive).
Proof.
  rewrite scores_on_session by (by left). unfold sorted_aggs.
  assert (aggregate (work_row no_parse 0 "Enter PV(TNB) directly"
                       <$> two_policies)
          = [mkAgg "A" (Float (num 30)) (Float 1);
             mkAgg "B" (Float (num 50)) (Float 1)]) as -> by by_evaluation.
  assert (num 30 < num 50) as Hlt by by_evaluation.
  by rewrite (proj2 (sort_values_desc_two sorter
                       (mkAgg "B" (Float (num 50)) (Float 1))
                       (mkAgg "A" (Float (num 30)) (Float 1))
                       (num 50) (num 30) eq_refl eq_refl Hlt)).
Qed.

Lemma ranks_are_one_to_n_witness :
  session two_policies !! 1%positive = Some two_policies
  ∧ ∃ scores w σ',
      compute_policy_scores no_parse insertion_sort 1%positive 0 "stream"
        (session two_policies)
      = (Ok (scores, w), σ')
      ∧ Rank <$> scores = seq 1 (length (remove_dups (Policy <$> two_policies))).
Proof.
  pose proof (session_lookup two_policies) as H1.
  assert (1 + 0 ≠ 0) as H2 by by_evaluation.
  split; [done|].
  exact (ranks_are_one_to_n no_parse insertion_sort _ _ _ 0 "stream"
           H1 (or_intror H2)).
Defined.

Lemma non_numeric_entries_are_skipped_witness :
  session text_in_prob !! 1%positive = Some text_in_prob
  ∧ ∃ scores w work,
      compute_policy_scores no_parse insertion_sort 1%positive 0
        "Enter PV(TNB) directly" (session text_in_prob)
      = (Ok (scores, w), <[w := work]> (session text_in_prob))
      ∧ Forall (fun s => policy_totals work s
                         ∧ PV_ETNB s ≠ NaN ∧ Prob_Sum s ≠ NaN) scores.
Proof.
  pose proof (session_lookup text_in_prob) as H1.
  split; [done|].
  destruct (non_numeric_entries_are_skipped no_parse insertion_sort _ _ _ 0
              "Enter PV(TNB) directly" H1 (or_introl eq_refl))
    as (scores & w & work & Hrun & _ & _ & Hagg).
  eauto.
Defined.

(** The text entry "abc" in Prob is coerced to NaN, and the aggregates of
    its policy are numbers all the same: the sums over the other row. *)
Lemma aggregates_of_affected_policy_are_numbers :
  coerce no_parse (Str "abc") = NaN
  ∧ ∀ sorter,
      (compute_policy_scores no_parse sorter 1%positive 0
         "Enter PV(TNB) directly" (session text_in_prob)).1
      = Ok ([mkScore "A" (Float (num 20)) (Float 1) 1], 2%positive).
Proof.
  split; [done|]. intros sorter.
  rewrite scores_on_session by (by left). unfold sorted_aggs.
  assert (aggregate (work_row no_parse 0 "Enter PV(TNB) directly"
                       <$> text_in_prob)
          = [mkAgg "A" (Float (num 20)) (Float 1)]) as -> by by_evaluation.
  by rewrite sort_values_desc_singleton by by eexists.
Qed.

(** ** More on pv_stream *)

Lemma sigma_ext n (f g : nat → Qc) :
  (∀ i, (i < n)%nat → f i = g i) → sigma n f = sigma n g.
Proof.
  induction n as [|n IH]; intros H; simpl; [done|].
  rewrite IH by (intros; apply H; lia). by rewrite H by lia.
Qed.

Lemma sigma_plus n (f g : nat → Qc) :
  sigma n (fun i => f i + g i) = sigma n f + sigma n g.
Proof. induction n as [|n IH]; simpl; [ring|]. rewrite IH. ring. Qed.

Lemma sigma_scale n c (f : nat → Qc) :
  sigma n (fun i => c * f i) = c * sigma n f.
Proof. induction n as [|n IH]; simpl; [ring|]. rewrite IH. ring. Qed.

Lemma sigma_split n m (f : nat → Qc) :
  sigma (n + m) f = sigma n f + sigma m (fun i => f (n + i)%nat).
Proof.
  induction m as [|m IH]; simpl.
  - rewrite Nat.add_0_r. ring.
  - rewrite Nat.add_succ_r. simpl. rewrite IH. ring.
Qed.

Lemma sigma_nth_total (B : list Qc) :
  sigma (length B) (fun i => nth i B 0) = total B.
Proof.
  induction B as [|x B IH] using rev_ind; [done|].
  rewrite length_app. simpl. rewrite Nat.add_1_r. simpl.
  rewrite (sigma_ext _ _ (fun i => nth i B 0)).
  2:{ intros i Hi. by rewrite app_nth1. }
  rewrite IH, app_nth2, Nat.sub_diag by lia. simpl.
  unfold total. rewrite foldr_app. simpl.
  clear IH. induction B as [|y B IH]; simpl; [ring|]. rewrite <-IH. ring.
Qed.

Lemma pv_stream_value (B : list Qc) r :
  1 + r ≠ 0 → pv_stream (Float <$> B) r = Ok (Float (present_value B r)).
Proof.
  intros Hr. unfold pv_stream, present_value, range.
  rewrite length_fmap. by apply pv_prefix.
Qed.

(** X1: at rate 0 nothing is discounted: [pv_stream] returns the plain
    sum of the benefits. *)
Theorem pv_stream_undiscounted (B : list Qc) :
  pv_stream (Float <$> B) 0 = Ok (Float (total B)).
Proof.
  rewrite pv_stream_value.
  2:{ rewrite Qcplus_0_r. apply Q_apart_0_1. }
  do 2 f_equal. unfold present_value. rewrite <-sigma_nth_total.
  apply sigma_ext. intros i _.
  rewrite Qcplus_0_r, Qcpower_1. apply (right_id 1 Qcdiv).
Qed.

Lemma nth_zip_with_plus (B C : list Qc) i :
  length B = length C →
  nth i (zip_with Qcplus B C) 0 = nth i B 0 + nth i C 0.
Proof.
  revert C i. induction B as [|b B IH]; intros [|c C] [|i] H; simpl in *;
    try done; try ring. apply IH. lia.
Qed.

Lemma nth_scale c (B : list Qc) i : nth i (scale c B) 0 = c * nth i B 0.
Proof.
  revert i. induction B as [|b B IH]; intros [|i]; simpl; try ring. apply IH.
Qed.

(** X2: present value is additive: for two streams of the same length
    and a rate r <> -1, the value of their period-by-period sum is the sum
    of their values. *)
Theorem pv_stream_additive (B C : list Qc) (r : Qc) :
  1 + r ≠ 0 → length B = length C →
  pv_stream (Float <$> zip_with Qcplus B C) r
  = Ok (Float (present_value B r + present_value C r)).
Proof.
  intros Hr Hlen. rewrite pv_stream_value by done. do 2 f_equal.
  unfold present_value. rewrite length_zip_with, <-Hlen, Nat.min_id.
  rewrite <-sigma_plus. apply sigma_ext. intros i _.
  rewrite nth_zip_with_plus by done. unfold Qcdiv. ring.
Qed.

(** X3: present value is homogeneous: multiplying every benefit by c
    multiplies the value by c (r <> -1). *)
Theorem pv_stream_homogeneous (c : Qc) (B : list Qc) (r : Qc) :
  1 + r ≠ 0 →
  pv_stream (Float <$> scale c B) r = Ok (Float (c * present_value B r)).
Proof.
  intros Hr. rewrite pv_stream_value by done. do 2 f_equal.
  unfold present_value, scale. rewrite length_fmap, <-sigma_scale.
  apply sigma_ext. intros i _.
  fold (scale c B). rewrite nth_scale. unfold Qcdiv. ring.
Qed.

Lemma Qcpower_plus' (x : Qc) n m : x ^ (n + m) = x ^ n * x ^ m.
Proof. induction n as [|n IH]; simpl; [ring|]. rewrite IH. ring. Qed.

(** X4: a stream can be valued in two parts: the value of B followed by
    C is the value of B plus the value of C discounted by len(B) further
    periods (r <> -1). *)
Theorem pv_stream_concat (B C : list Qc) (r : Qc) :
  1 + r ≠ 0 →
  pv_stream (Float <$> (B ++ C)) r
  = Ok (Float (present_value B r
               + present_value C r / (1 + r) ^ length B)).
Proof.
  intros Hr. rewrite pv_stream_value by done. do 2 f_equal.
  unfold present_value. rewrite length_app, sigma_split. f_equal.
  - apply sigma_ext. intros i Hi. by rewrite app_nth1.
  - unfold Qcdiv. rewrite Qcmult_comm, <-sigma_scale.
    apply sigma_ext. intros i _.
    rewrite app_nth2_plus, Qcpower_plus'.
    field. split; by apply Qcpower_nonzero.
Qed.

(** X5: [pv_stream] does not skip missing values: one NaN among numeric
    benefits makes the result NaN (r <> -1). *)
Theorem pv_stream_propagates_nan (B : list value) (r : Qc) :
  1 + r ≠ 0 → Forall numeric B → NaN ∈ B → pv_stream B r = Ok NaN.
Proof. apply pv_stream_nan. Qed.

Lemma pv_fold_numeric_at B r a l :
  1 + r ≠ 0 → numeric a →
  Forall (fun i => ∃ b, B !! i = Some b ∧ numeric b) l →
  ∃ v, foldl (pv_step B r) (Ok a) l = Ok v ∧ numeric v.
Proof.
  intros Hr. revert a. induction l as [|i l IH]; intros a Ha Hl.
  - simpl. eauto.
  - apply Forall_cons in Hl as [(b & Hb & Hnb) Hl]. cbn [foldl].
    destruct (py_truediv_numeric b ((1 + r) ^ i) Hnb) as (q & Hq & Hnq);
      [by apply Qcpower_nonzero|].
    destruct (py_add_numeric a q Ha Hnq) as (s & Hs & Hns).
    assert (pv_step B r (Ok a) i = Ok s) as ->.
    { unfold pv_step, py_index. rewrite Hb. simpl. rewrite Hq. simpl. done. }
    by apply IH.
Qed.

(** X6: a text entry in the stream, after numeric ones only, raises
    TypeError (r <> -1). *)
Theorem pv_stream_text_raises (pre post : list value) (s : string) (r : Qc) :
  1 + r ≠ 0 → Forall numeric pre →
  pv_stream (pre ++ Str s :: post) r = Raise TypeError.
Proof.
  intros Hr Hpre. unfold pv_stream, range.
  rewrite length_app. simpl. rewrite seq_app. simpl. rewrite foldl_app.
  destruct (pv_fold_numeric_at (pre ++ Str s :: post) r (Float 0)
              (seq 0 (length pre)) Hr I) as (v & -> & Hv).
  { apply Forall_forall. intros i Hi%elem_of_seq.
    destruct (lookup_lt_is_Some_2 pre i) as [b Hb]; [lia|].
    exists b. split; [by apply lookup_app_l_Some|].
    rewrite Forall_forall in Hpre. eapply Hpre, list_elem_of_lookup_2, Hb. }
  cbn [foldl].
  assert (pv_step (pre ++ Str s :: post) r (Ok v) (length pre) = Raise TypeError)
    as ->; [|apply pv_raise_tail].
  unfold pv_step, py_index. rewrite list_lookup_middle by done.
  simpl. by destruct v.
Qed.

Lemma pv_stream_zero_divisor (b0 b1 : value) (rest : list value) (r : Qc) :
  1 + r = 0 → numeric b0 → numeric b1 →
  pv_stream (b0 :: b1 :: rest) r = Raise ZeroDivisionError.
Proof.
  intros Hr H0 H1. unfold pv_stream, range.
  change (seq 0 (length (b0 :: b1 :: rest)))
    with (0%nat :: 1%nat :: seq 2 (length rest)).
  cbn [foldl].
  assert (∃ v, pv_step (b0 :: b1 :: rest) r (Ok (Float 0)) 0 = Ok v ∧ numeric v)
    as (v & -> & Hv).
  { unfold pv_step, py_index. simpl.
    destruct (py_truediv_numeric b0 1 H0 Q_apart_0_1) as (q & Hq & Hnq).
    change (Float (Q2Qc 1)) with (Float 1). rewrite Hq.
    cbn [mbind result_bind]. destruct q; [by eexists..|done]. }
  assert (pv_step (b0 :: b1 :: rest) r (Ok v) 1 = Raise ZeroDivisionError)
    as ->; [|apply pv_raise_tail].
  unfold pv_step, py_index. simpl. rewrite Hr, Qcmult_0_l.
  destruct b1; simpl; try done; by destruct (decide (0 = 0)).
Qed.

Lemma sigma_le n (f g : nat → Qc) :
  (∀ i, f i ≤ g i) → sigma n f ≤ sigma n g.
Proof.
  intros H. induction n as [|n IH]; simpl; [apply Qcle_refl|].
  by apply Qcplus_le_compat.
Qed.

Lemma sigma_zero n : sigma n (fun _ => 0) = 0.
Proof. induction n as [|n IH]; simpl; [done|]. rewrite IH. ring. Qed.

Lemma discount_factor_ge_one (r : Qc) i : 0 ≤ r → 1 ≤ (1 + r) ^ i.
Proof.
  intros Hr. assert (1 ≤ 1 + r) as H1.
  { rewrite <-(Qcplus_0_r 1) at 1. by apply Qcplus_le_mono_l. }
  induction i as [|i IH]; simpl; [apply Qcle_refl|].
  apply Qcle_trans with (1 * (1 + r) ^ i).
  - by rewrite Qcmult_1_l.
  - apply Qcmult_le_compat_r; [done|].
    apply Qcle_trans with 1; [done|apply IH].
Qed.

Lemma discounted_term_bounds (b d : Qc) : 0 ≤ b → 1 ≤ d → 0 ≤ b / d ∧ b / d ≤ b.
Proof.
  intros Hb Hd.
  assert (0 < d) as Hpos by (by apply Qclt_le_trans with 1).
  assert (d ≠ 0) as Hne by (intros ->; by apply (irreflexivity Qclt 0)).
  assert (b / d * d = b) as Hcancel by (field; done).
  split; apply (Qcmult_lt_0_le_reg_r _ _ d Hpos); rewrite Hcancel.
  - by rewrite Qcmult_0_l.
  - rewrite <-(Qcmult_1_l b) at 1. rewrite (Qcmult_comm b d).
    by apply Qcmult_le_compat_r.
Qed.

Lemma nth_nonneg (B : list Qc) i : Forall (Qcle 0) B → 0 ≤ nth i B 0.
Proof.
  intros H. revert i. induction H as [|b B Hb _ IH]; intros [|i]; simpl;
    try done; apply Qcle_refl.
Qed.

(** X8: for r >= 0 and benefits that are all non-negative, the present
    value lies between 0 and the undiscounted total. *)
Theorem pv_stream_between_zero_and_total (B : list Qc) (r : Qc) :
  0 ≤ r → Forall (Qcle 0) B →
  ∃ x, pv_stream (Float <$> B) r = Ok (Float x) ∧ 0 ≤ x ∧ x ≤ total B.
Proof.
  intros Hr HB. exists (present_value B r).
  split; [apply pv_stream_value; by apply discount_factor_nonzero|].
  unfold present_value. split.
  - apply Qcle_trans with (sigma (length B) (fun _ => 0));
      [rewrite sigma_zero; apply Qcle_refl|].
    apply sigma_le. intros i.
    apply discounted_term_bounds;
      [by apply nth_nonneg|by apply discount_factor_ge_one].
  - rewrite <-sigma_nth_total. apply sigma_le. intros i.
    apply discounted_term_bounds;
      [by apply nth_nonneg|by apply discount_factor_ge_one].
Qed.

(** X7: at r = -1 every stream with at least two periods whose first two
    entries are numeric raises ZeroDivisionError, whatever the benefits. *)
Theorem pv_stream_minus_one_raises (b0 b1 : value) (rest : list value) (r : Qc) :
  1 + r = 0 → numeric b0 → numeric b1 →
  pv_stream (b0 :: b1 :: rest) r = Raise ZeroDivisionError.
Proof. apply pv_stream_zero_divisor. Qed.

(** ** More on compute_policy_scores *)

Lemma M_bind_raise {A B} (m : M A) (k : A → M B) σ e σ' :
  m σ = (Raise e, σ') → (x ← m; k x) σ = (Raise e, σ').
Proof. intros H. unfold mbind, M_bind. by rewrite H. Qed.

Lemma coerce_benefits_run parse (σ : store) w t :
  σ !! w = Some t →
  for_each [cB0; cB1; cB2; cB3] (fun c =>
    col ← getitem w c;
    setitem w c (to_numeric parse col)) σ
  = (Ok tt,
     <[w := (coerce_cell parse cB3 ∘ coerce_cell parse cB2
             ∘ coerce_cell parse cB1 ∘ coerce_cell parse cB0) <$> t]> σ).
Proof.
  intros H. cbn [for_each].
  rewrite (M_bind_run _ _ _ _ _ (coerce_column_run parse _ _ cB0 _ H ltac:(done))).
  rewrite (M_bind_run _ _ _ _ _
    (coerce_column_run parse _ _ cB1 _ (store_lookup_insert _ _ _) ltac:(done))).
  rewrite (M_bind_run _ _ _ _ _
    (coerce_column_run parse _ _ cB2 _ (store_lookup_insert _ _ _) ltac:(done))).
  rewrite (M_bind_run _ _ _ _ _
    (coerce_column_run parse _ _ cB3 _ (store_lookup_insert _ _ _) ltac:(done))).
  unfold mret, M_ret. rewrite !insert_insert_eq.
  by rewrite <-!list_fmap_compose.
Qed.

Lemma row_pv_zero_divisor parse r row :
  1 + r = 0 →
  row_pv r (coerce_cell parse cB3 (coerce_cell parse cB2
              (coerce_cell parse cB1 (coerce_cell parse cB0 row))))
  = Raise ZeroDivisionError.
Proof.
  intros Hr. destruct row. unfold row_pv. simpl.
  apply pv_stream_zero_divisor; [done|apply coerce_numeric..].
Qed.

(** X9: in stream mode at r = -1 [compute_policy_scores] raises
    ZeroDivisionError on every non-empty table: no scores are returned. *)
Theorem stream_mode_raises_at_minus_one
    parse sorter (σ : store) df (t : DataFrame) r mode :
  σ !! df = Some t → t ≠ [] →
  mode ≠ "Enter PV(TNB) directly" → 1 + r = 0 →
  (compute_policy_scores parse sorter df r mode σ).1 = Raise ZeroDivisionError.
Proof.
  intros H Ht Hmode Hr. unfold compute_policy_scores.
  rewrite (M_bind_run _ _ _ _ _ (copy_run _ _ _ H)).
  set (w := fresh (dom σ)).
  apply String.eqb_neq in Hmode. rewrite Hmode.
  erewrite M_bind_raise; [done|].
  rewrite (M_bind_run _ _ _ _ _
    (coerce_benefits_run parse _ w t (store_lookup_insert _ _ _))).
  apply M_bind_raise. unfold apply_rows.
  rewrite (M_bind_run _ _ _ _ _ (read_run _ _ _ (store_lookup_insert _ _ _))).
  unfold lift. f_equal.
  destruct t as [|row t]; [done|]. rewrite fmap_cons. cbn [traverse].
  unfold compose. by rewrite row_pv_zero_divisor.
Qed.

Lemma filter_fmap_commute {A B} (P : B → Prop) `{∀ y, Decision (P y)}
    (f : A → B) (l : list A) :
  filter P (f <$> l) = f <$> filter (fun x => P (f x)) l.
Proof.
  induction l as [|x l IH]; [done|]. rewrite fmap_cons, !filter_cons.
  destruct (decide (P (f x))); by rewrite IH.
Qed.

Lemma skipna_sum_cons v col :
  skipna_sum (v :: col) = float_or_zero v + skipna_sum col.
Proof. done. Qed.

Lemma skipna_sum_perm col col' : col ≡ₚ col' → skipna_sum col = skipna_sum col'.
Proof.
  induction 1 as [|v l l' _ IH|v v' l|l1 l2 l3 _ IH1 _ IH2].
  - done.
  - by rewrite !skipna_sum_cons, IH.
  - rewrite !skipna_sum_cons. ring.
  - by rewrite IH1.
Qed.

Lemma group_keys_essence (w w' : DataFrame) :
  essence <$> w ≡ₚ essence <$> w' → group_keys w = group_keys w'.
Proof.
  intros Hp.
  assert (Policy <$> w ≡ₚ Policy <$> w') as Hpol.
  { apply (fmap_Permutation (fun e : string * value * value => e.1.1)) in Hp.
    by rewrite <-!list_fmap_compose in Hp. }
  unfold group_keys. apply (StronglySorted_unique String.le).
  - apply StronglySorted_merge_sort; apply _.
  - apply StronglySorted_merge_sort; apply _.
  - rewrite !merge_sort_Permutation.
    apply NoDup_Permutation; [apply NoDup_remove_dups..|].
    intros k. rewrite !elem_of_remove_dups. by rewrite Hpol.
Qed.

Lemma agg_of_essence (w w' : DataFrame) k :
  essence <$> w ≡ₚ essence <$> w' → agg_of w k = agg_of w' k.
Proof.
  intros Hp. unfold agg_of, group_rows.
  assert (∀ t : DataFrame,
    essence <$> filter (fun row => Policy row = k) t
    = filter (fun e : string * value * value => e.1.1 = k) (essence <$> t)) as Hf.
  { intros t. by rewrite filter_fmap_commute. }
  assert (essence <$> filter (fun row => Policy row = k) w
          ≡ₚ essence <$> filter (fun row => Policy row = k) w') as Hg.
  { by rewrite !Hf, Hp. }
  f_equal; f_equal.
  - apply (fmap_Permutation (fun e : string * value * value => e.2)) in Hg.
    rewrite <-!list_fmap_compose in Hg. by apply skipna_sum_perm.
  - apply (fmap_Permutation (fun e : string * value * value => e.1.2)) in Hg.
    rewrite <-!list_fmap_compose in Hg. by apply skipna_sum_perm.
Qed.

Lemma aggregate_essence (w w' : DataFrame) :
  essence <$> w ≡ₚ essence <$> w' → aggregate w = aggregate w'.
Proof.
  intros Hp. unfold aggregate. rewrite (group_keys_essence w w' Hp).
  apply list_fmap_ext. intros _ k _. by apply agg_of_essence.
Qed.


Lemma work_row_essence parse r r' mode a b :
  reads_same mode a b → direct mode = true ∨ r' = r →
  essence (work_row parse r mode a) = essence (work_row parse r' mode b).
Proof.
  intros (HP & Hp & Hrest) Hr. destruct a, b. simpl in *. subst.
  unfold work_row, pre_row. destruct (direct mode).
  - by subst.
  - destruct Hr as [? | ->]; [done|]. by destruct Hrest as (-> & -> & -> & ->).
Qed.

(** X11: the scores depend only on the columns the mode reads: Policy,
    Prob and PV_TNB in direct mode (where the rate is not read either),
    Policy, Prob and B0..B3 in stream mode.  Two tables that agree there
    row by row give the same scores. *)
Theorem scores_read_only_their_mode_columns
    parse sorter (σ σ' : store) df df' (t t' : DataFrame) r r' mode :
  σ !! df = Some t → σ' !! df' = Some t' →
  Forall2 (reads_same mode) t t' →
  mode = "Enter PV(TNB) directly" ∨ (r' = r ∧ 1 + r ≠ 0) →
  ∃ scores w w',
    (compute_policy_scores parse sorter df r mode σ).1 = Ok (scores, w)
    ∧ (compute_policy_scores parse sorter df' r' mode σ').1 = Ok (scores, w').
Proof.
  intros H H' Hsame Hm.
  assert (direct mode = true ∨ 1 + r ≠ 0) as Hm1.
  { destruct Hm as [?|[_ ?]]; [left; by apply direct_true|by right]. }
  assert (direct mode = true ∨ 1 + r' ≠ 0) as Hm2.
  { destruct Hm as [?|[-> ?]]; [left; by apply direct_true|by right]. }
  assert (direct mode = true ∨ r' = r) as Hm3.
  { destruct Hm as [?|[-> ?]]; [left; by apply direct_true|by right]. }
  rewrite (compute_policy_scores_run parse sorter σ df t r mode H Hm1).
  rewrite (compute_policy_scores_run parse sorter σ' df' t' r' mode H' Hm2).
  eexists _, _, _. split; [done|]. simpl. do 4 f_equal.
  apply aggregate_essence. rewrite <-!list_fmap_compose.
  assert ((essence ∘ work_row parse r mode) <$> t
          = (essence ∘ work_row parse r' mode) <$> t') as ->; [|done].
  clear H H'. induction Hsame as [|a b t t' Hab _ IH]; [done|].
  rewrite !fmap_cons. f_equal; [|done]. by apply work_row_essence.
Qed.

Lemma total_cons x l : total (x :: l) = x + total l.
Proof. done. Qed.

Lemma total_float (g : string → Qc) ks :
  skipna_sum ((fun k => Float (g k)) <$> ks) = total (g <$> ks).
Proof.
  induction ks as [|k ks IH]; [done|].
  rewrite !fmap_cons, skipna_sum_cons, total_cons. by rewrite IH.
Qed.

Lemma total_plus (g h : string → Qc) ks :
  total ((fun k => g k + h k) <$> ks) = total (g <$> ks) + total (h <$> ks).
Proof.
  induction ks as [|k ks IH]; [unfold total; simpl; ring|].
  rewrite !fmap_cons, !total_cons, IH. ring.
Qed.

Lemma total_zero (g : string → Qc) ks :
  (∀ k, k ∈ ks → g k = 0) → total (g <$> ks) = 0.
Proof.
  induction ks as [|k ks IH]; intros H; [done|].
  rewrite fmap_cons, total_cons, H by left.
  rewrite IH; [ring|]. intros. apply H. by right.
Qed.

Lemma total_indicator (p : string) (c : Qc) ks :
  NoDup ks → p ∈ ks →
  total ((fun k => if decide (p = k) then c else 0) <$> ks) = c.
Proof.
  induction 1 as [|k ks Hk _ IH]; intros Hp; [by apply elem_of_nil in Hp|].
  rewrite fmap_cons, total_cons.
  destruct (decide (p = k)) as [->|Hne].
  - rewrite total_zero; [ring|]. intros k' Hk'.
    destruct (decide (k = k')) as [->|]; done.
  - apply elem_of_cons in Hp as [?|Hp]; [done|]. rewrite IH by done. ring.
Qed.

Lemma groups_partition (f : Row → value) ks (w : DataFrame) :
  NoDup ks → (∀ row, row ∈ w → Policy row ∈ ks) →
  total ((fun k => skipna_sum (f <$> group_rows k w)) <$> ks)
  = skipna_sum (f <$> w).
Proof.
  intros Hnd. induction w as [|x w IH]; intros Hks.
  - apply total_zero. by intros.
  - rewrite fmap_cons, skipna_sum_cons, <-IH.
    2:{ intros row Hrow. apply Hks. by right. }
    rewrite <-(total_indicator (Policy x) (float_or_zero (f x)) ks Hnd)
      by (apply Hks; by left).
    rewrite <-total_plus. f_equal. apply list_fmap_ext. intros _ k _.
    unfold group_rows, DataFrame. destruct (decide (Policy x = k)).
    + by rewrite filter_cons_True.
    + rewrite filter_cons_False by done. ring.
Qed.

Lemma assign_rank_pv g : PV_ETNB <$> assign_rank g = agg_PV_ETNB <$> g.
Proof.
  apply list_eq. intros i. rewrite !list_lookup_fmap.
  destruct (assign_rank g !! i) as [s|] eqn:E; simpl.
  - apply assign_rank_lookup in E as (a & Ha & ->). by rewrite Ha.
  - apply lookup_ge_None in E. rewrite assign_rank_length in E.
    apply lookup_ge_None in E. by rewrite E.
Qed.

Lemma assign_rank_prob g : Prob_Sum <$> assign_rank g = agg_Prob_Sum <$> g.
Proof.
  apply list_eq. intros i. rewrite !list_lookup_fmap.
  destruct (assign_rank g !! i) as [s|] eqn:E; simpl.
  - apply assign_rank_lookup in E as (a & Ha & ->). by rewrite Ha.
  - apply lookup_ge_None in E. rewrite assign_rank_length in E.
    apply lookup_ge_None in E. by rewrite E.
Qed.

Lemma group_keys_cover (w : DataFrame) row : row ∈ w → Policy row ∈ group_keys w.
Proof.
  intros H. rewrite group_keys_perm, elem_of_remove_dups.
  apply list_elem_of_fmap. eauto.
Qed.

Lemma group_keys_nodup (w : DataFrame) : NoDup (group_keys w).
Proof. rewrite group_keys_perm. apply NoDup_remove_dups. Qed.

(** X12: aggregation loses nothing: the Prob_Sum of all policies add up
    to the sum of the non-missing coerced Prob entries of the table, and
    the PV_ETNB of all policies add up to the sum of the non-missing
    Weighted_PV_TNB of the working copy. *)
Theorem scores_conserve_totals parse sorter (σ : store) df (t : DataFrame) r mode :
  σ !! df = Some t →
  mode = "Enter PV(TNB) directly" ∨ 1 + r ≠ 0 →
  ∃ scores w work,
    compute_policy_scores parse sorter df r mode σ = (Ok (scores, w), <[w := work]> σ)
    ∧ skipna_sum (Prob_Sum <$> scores)
      = skipna_sum ((fun row => coerce parse (Prob row)) <$> t)
    ∧ skipna_sum (PV_ETNB <$> scores)
      = skipna_sum (cell cWeighted_PV_TNB <$> work).
Proof.
  intros Hdf Hm%usable_rate.
  eexists _, _, _. split; [by apply compute_policy_scores_run|].
  fold (sorted_aggs sorter (work_row parse r mode <$> t)).
  set (work := work_row parse r mode <$> t).
  rewrite assign_rank_prob, assign_rank_pv.
  rewrite !(skipna_sum_perm _ _ (fmap_Permutation _ _ _ (sorted_aggs_perm sorter work))).
  unfold aggregate. rewrite <-!list_fmap_compose. split.
  - change (agg_Prob_Sum ∘ agg_of work)
      with (fun k => Float (skipna_sum (Prob <$> group_rows k work))).
    rewrite total_float, groups_partition;
      [|apply group_keys_nodup|apply group_keys_cover].
    subst work. rewrite <-list_fmap_compose. f_equal.
    apply list_fmap_ext. intros _ row _. apply work_row_frame.
  - change (agg_PV_ETNB ∘ agg_of work)
      with (fun k => Float (skipna_sum
                              (cell cWeighted_PV_TNB <$> group_rows k work))).
    rewrite total_float, groups_partition;
      [done|apply group_keys_nodup|apply group_keys_cover].
Qed.

(** ** The order of the ranks *)

Lemma scores_rank sorter work i s :
  assign_rank (sorted_aggs sorter work) !! i = Some s →
  Rank s = S i ∧ ∃ x, PV_ETNB s = Float x.
Proof.
  intros (a & Ha & ->)%assign_rank_lookup. split; [done|].
  apply (sorted_aggs_float sorter work a). by eapply list_elem_of_lookup_2.
Qed.




(** Two routines that meet the requirements and rank the tied policies
    A and B in opposite orders. *)
Example tie_order_depends_on_the_routine :
  (compute_policy_scores no_parse insertion_sort 1%positive 0
     "Enter PV(TNB) directly" (session tied_policies)).1
  = Ok ([mkScore "A" (Float (num 10)) (Float 1) 1;
         mkScore "B" (Float (num 10)) (Float 1) 2], 2%positive)
  ∧ (compute_policy_scores no_parse (reversing_sort insertion_sort) 1%positive 0
       "Enter PV(TNB) directly" (session tied_policies)).1
    = Ok ([mkScore "B" (Float (num 10)) (Float 1) 1;
           mkScore "A" (Float (num 10)) (Float 1) 2], 2%positive).
Proof. split; by_evaluation. Qed.

(** X13: a policy with a higher PV_ETNB always has the smaller Rank, and
    a smaller Rank never goes with a lower PV_ETNB; every PV_ETNB of the
    scores table is a number. *)
Theorem higher_pv_ranks_first
    parse sorter (σ : store) df (t : DataFrame) r mode :
  σ !! df = Some t →
  mode = "Enter PV(TNB) directly" ∨ 1 + r ≠ 0 →
  ∃ scores w σ',
    compute_policy_scores parse sorter df r mode σ = (Ok (scores, w), σ')
    ∧ ∀ s s', s ∈ scores → s' ∈ scores →
        ∃ x y, PV_ETNB s = Float x ∧ PV_ETNB s' = Float y
          ∧ (y < x → (Rank s < Rank s')%nat)
          ∧ ((Rank s < Rank s')%nat → y ≤ x).
Proof.
  intros Hdf Hm%usable_rate.
  eexists _, _, _. split; [by apply compute_policy_scores_run|].
  fold (sorted_aggs sorter (work_row parse r mode <$> t)).
  set (work := work_row parse r mode <$> t).
  intros s s' (i & Hi)%list_elem_of_lookup (j & Hj)%list_elem_of_lookup.
  destruct (scores_rank sorter work i s Hi) as [-> [x Hx]].
  destruct (scores_rank sorter work j s' Hj) as [-> [y Hy]].
  exists x, y. split_and!; [done..| |].
  - intros Hlt. destruct (lt_eq_lt_dec i j) as [[?| ->]|Hgt]; [lia| |].
    + simplify_eq. rewrite Hx in Hy. simplify_eq.
      by destruct (irreflexivity Qclt y).
    + destruct (scores_descending sorter work j i s' s Hgt Hj Hi)
        as (y' & x' & Hy' & Hx' & Hle).
      rewrite Hx in Hx'. rewrite Hy in Hy'. simplify_eq.
      by destruct (Qclt_not_le _ _ Hlt).
  - intros Hlt.
    destruct (scores_descending sorter work i j s s' ltac:(lia) Hi Hj)
      as (x' & y' & Hx' & Hy' & Hle).
    rewrite Hx in Hx'. rewrite Hy in Hy'. by simplify_eq.
Qed.

(** ** The recommendation *)

Lemma pv_ge_refl s : (∃ x, PV_ETNB s = Float x) → pv_ge s s.
Proof. intros [x Hx]. exists x, x. split_and!; [done..|apply Qcle_refl]. Qed.

Lemma scores_nonempty sorter (work : DataFrame) :
  work ≠ [] → assign_rank (sorted_aggs sorter work) ≠ [].
Proof.
  intros Hw Hs. apply (f_equal length) in Hs.
  rewrite assign_rank_length, sorted_aggs_perm in Hs. unfold aggregate in Hs.
  rewrite length_fmap in Hs. simpl in Hs. apply nil_length_inv in Hs.
  destruct work as [|row work]; [done|].
  pose proof (group_keys_cover (row :: work) row ltac:(left)) as Hin.
  rewrite Hs in Hin. by apply elem_of_nil in Hin.
Qed.

(** X14: on a non-empty table the recommended policy, [scores.iloc[0]],
    exists, is a policy of the table, has Rank 1, and no policy has a
    higher PV_ETNB. *)
Theorem recommended_policy_is_best
    parse sorter (σ : store) df (t : DataFrame) r mode :
  σ !! df = Some t → t ≠ [] →
  mode = "Enter PV(TNB) directly" ∨ 1 + r ≠ 0 →
  ∃ scores w σ' best,
    compute_policy_scores parse sorter df r mode σ = (Ok (scores, w), σ')
    ∧ recommended_policy scores = Ok (score_Policy best, PV_ETNB best)
    ∧ best ∈ scores
    ∧ score_Policy best ∈ Policy <$> t
    ∧ Rank best = 1%nat
    ∧ ∀ s, s ∈ scores → pv_ge best s.
Proof.
  intros Hdf Ht Hm%usable_rate.
  rewrite (compute_policy_scores_run parse sorter σ df t r mode Hdf Hm).
  fold (sorted_aggs sorter (work_row parse r mode <$> t)).
  set (work := work_row parse r mode <$> t).
  assert (work ≠ []) as Hw by (subst work; by destruct t).
  pose proof (scores_nonempty sorter work Hw) as Hne.
  pose proof (scores_policies sorter work) as Hpol.
  pose proof (λ i j s s', scores_descending sorter work i j s s') as Hdesc.
  pose proof (λ i s, proj1 (assign_rank_lookup (sorted_aggs sorter work) i s)) as Hlk.
  destruct (assign_rank (sorted_aggs sorter work)) as [|best rest] eqn:E; [done|].
  eexists _, _, _, best. split; [done|].
  destruct (Hlk 0%nat best eq_refl) as (a & Ha & Hbest).
  assert (∃ x, PV_ETNB best = Float x) as Hfloat.
  { rewrite Hbest. simpl.
    apply (sorted_aggs_float sorter work a). by eapply list_elem_of_lookup_2. }
  split_and!; [done|by left| |by rewrite Hbest|].
  - rewrite <-(work_policies parse r mode t), <-elem_of_remove_dups.
    fold work. rewrite <-Hpol. rewrite fmap_cons. by left.
  - intros s (j & Hj)%list_elem_of_lookup. destruct j as [|j].
    + simpl in Hj. simplify_eq. by apply pv_ge_refl.
    + by apply (Hdesc 0%nat (S j)); [lia|..].
Qed.

(** ** The PV calculator *)

(** X17: for a rate r >= 0 the PV calculator does not raise and shows
    B0 + B1/(1+r) + B2/(1+r)^2 + B3/(1+r)^3. *)
Theorem pv_calculator_shows_discounted_sum (b0 b1 b2 b3 r2 : Qc) :
  0 ≤ r2 →
  pv_calculator b0 b1 b2 b3 r2
  = Ok (Float (b0 + b1 / (1 + r2) + b2 / (1 + r2) ^ 2 + b3 / (1 + r2) ^ 3)).
Proof.
  intros Hr. pose proof (discount_factor_nonzero r2 Hr) as Hne.
  unfold pv_calculator.
  change [Float b0; Float b1; Float b2; Float b3]
    with (Float <$> [b0; b1; b2; b3]).
  rewrite pv_stream_value by done. do 2 f_equal.
  unfold present_value. simpl. field. done.
Qed.

(** ** More on the resource tab *)

(** X18: the resource tab finishes without an exception exactly when
    b <= 0, or 2 + r <> 0 and 1 + r <> 0; otherwise it raises
    ZeroDivisionError, and when only the check divides by zero (r = -1) the
    four solution outputs are on the page and the check line is not. *)
Theorem resource_tab_raises_iff (a b mc r Q : Qc) :
  let out := depletable_resource_tab a b mc r Q blank in
  (out.1 = Ok tt ↔ b ≤ 0 ∨ (2 + r ≠ 0 ∧ 1 + r ≠ 0))
  ∧ (out.1 = Raise ZeroDivisionError ↔ 0 < b ∧ (2 + r = 0 ∨ 1 + r = 0))
  ∧ (0 < b → 2 + r ≠ 0 → 1 + r = 0 →
     shown out.2 = solution_outputs_of a b mc r Q).
Proof.
  cbn zeta. destruct (Qclt_le_dec 0 b) as [Hb|Hb].
  - assert (¬ b ≤ 0) as Hnb by by apply Qclt_not_le.
    destruct (decide (2 + r = 0)) as [Hr|Hr].
    { rewrite tab_first_division_fails by done. cbn [fst snd shown].
      split_and!; [|naive_solver|done]. split; [done|]. intros [?|[? _]]; done. }
    destruct (decide (1 + r = 0)) as [Hr1|Hr1].
    + rewrite tab_check_fails by done. cbn [fst snd shown].
      split_and!; [|naive_solver|done]. split; [done|]. intros [?|[_ ?]]; done.
    + rewrite tab_solves by done. cbn [fst snd shown].
      split_and!; [naive_solver| |done]. split; [done|]. intros [_ [?|?]]; done.
  - rewrite tab_nonpositive by done. cbn [fst snd shown].
    split_and!; [naive_solver| |].
    + split; [done|]. intros [Hlt _]. by destruct (Qclt_not_le _ _ Hlt).
    + intros Hlt. by destruct (Qclt_not_le _ _ Hlt).
Qed.

Lemma two_nonzero : 2 + 0 ≠ 0.
Proof. by_evaluation. Qed.

Lemma one_nonzero : 1 + 0 ≠ 0.
Proof. by_evaluation. Qed.

(** X19: without discounting (r = 0) and with b > 0 the reserves are
    split evenly, q1 = q2 = Q/2, the two prices are equal, and the two
    sides of the check line coincide. *)
Theorem no_discounting_splits_evenly (a b mc Q : Qc) :
  0 < b →
  let half := Q / 2 in
  let P := a - b * half in
  shown (depletable_resource_tab a b mc 0 Q blank).2
  = [st_write "### Solution"; st_metric "q1*" half; st_metric "q2*" half;
     st_write_prices P P; st_caption_check (P - mc) (P - mc)].
Proof.
  intros Hb. cbn zeta.
  rewrite (tab_solves a b mc 0 Q Hb two_nonzero one_nonzero).
  cbn [snd shown]. unfold solution_outputs_of. cbn [app].
  assert (b ≠ 0) as Hne by (intros ->; by apply (irreflexivity Qclt 0)).
  assert (q1_closed_form a b mc 0 Q = Q / 2) as ->.
  { unfold q1_closed_form. field. repeat split; first [assumption|by_evaluation]. }
  assert (Q - Q / 2 = Q / 2) as ->.
  { field. repeat split; first [assumption|by_evaluation]. }
  do 5 f_equal. f_equal. field. repeat split; first [assumption|by_evaluation].
Qed.

(** ** The further properties at sample inputs *)

Lemma pv_stream_additive_witness :
  (1 + frac 7 100 ≠ 0 ∧ length [num 100; num 200] = length [num 5; num 6])
  ∧ pv_stream (Float <$> zip_with Qcplus [num 100; num 200] [num 5; num 6])
      (frac 7 100)
    = Ok (Float (present_value [num 100; num 200] (frac 7 100)
                 + present_value [num 5; num 6] (frac 7 100))).
Proof.
  assert (1 + frac 7 100 ≠ 0) as H by by_evaluation.
  split; [done|].
  exact (pv_stream_additive [num 100; num 200] [num 5; num 6] _ H eq_refl).
Defined.

Lemma pv_stream_homogeneous_witness :
  1 + frac 7 100 ≠ 0
  ∧ pv_stream (Float <$> scale (num 3) [num 100; num 200]) (frac 7 100)
    = Ok (Float (num 3 * present_value [num 100; num 200] (frac 7 100))).
Proof.
  assert (1 + frac 7 100 ≠ 0) as H by by_evaluation.
  split; [done|]. exact (pv_stream_homogeneous _ _ _ H).
Defined.

Lemma pv_stream_concat_witness :
  1 + frac 7 100 ≠ 0
  ∧ pv_stream (Float <$> ([num 100; num 200] ++ [num 300])) (frac 7 100)
    = Ok (Float (present_value [num 100; num 200] (frac 7 100)
                 + present_value [num 300] (frac 7 100)
                   / (1 + frac 7 100) ^ length [num 100; num 200])).
Proof.
  assert (1 + frac 7 100 ≠ 0) as H by by_evaluation.
  split; [done|]. exact (pv_stream_concat _ _ _ H).
Defined.

Lemma pv_stream_propagates_nan_witness :
  (1 + frac 7 100 ≠ 0 ∧ Forall numeric [Float 1; NaN; Float 1]
   ∧ NaN ∈ [Float 1; NaN; Float 1])
  ∧ pv_stream [Float 1; NaN; Float 1] (frac 7 100) = Ok NaN.
Proof.
  assert (1 + frac 7 100 ≠ 0) as H1 by by_evaluation.
  assert (Forall numeric [Float 1; NaN; Float 1]) as H2
    by (repeat constructor).
  assert (NaN ∈ [Float 1; NaN; Float 1]) as H3 by (right; left).
  split; [done|]. exact (pv_stream_propagates_nan _ _ H1 H2 H3).
Defined.

Lemma pv_stream_text_raises_witness :
  (1 + frac 7 100 ≠ 0 ∧ Forall numeric [Float 1])
  ∧ pv_stream ([Float 1] ++ Str "abc" :: [Float 1]) (frac 7 100)
    = Raise TypeError.
Proof.
  assert (1 + frac 7 100 ≠ 0) as H1 by by_evaluation.
  assert (Forall numeric [Float 1]) as H2 by (repeat constructor).
  split; [done|]. exact (pv_stream_text_raises _ _ _ _ H1 H2).
Defined.

Lemma pv_stream_minus_one_raises_witness :
  (1 + num (-1) = 0 ∧ numeric (Float (num 100)) ∧ numeric NaN)
  ∧ pv_stream (Float (num 100) :: NaN :: [Float 1]) (num (-1))
    = Raise ZeroDivisionError.
Proof.
  assert (1 + num (-1) = 0) as H1 by by_evaluation.
  split; [done|].
  exact (pv_stream_minus_one_raises (Float (num 100)) NaN [Float 1] _ H1 I I).
Defined.

Lemma pv_stream_between_zero_and_total_witness :
  (0 ≤ frac 7 100 ∧ Forall (Qcle 0) [num 100; num 200])
  ∧ ∃ x, pv_stream (Float <$> [num 100; num 200]) (frac 7 100) = Ok (Float x)
         ∧ 0 ≤ x ∧ x ≤ total [num 100; num 200].
Proof.
  assert (0 ≤ frac 7 100) as H1 by by_evaluation.
  assert (Forall (Qcle 0) [num 100; num 200]) as H2
    by (repeat constructor; by_evaluation).
  split; [done|]. exact (pv_stream_between_zero_and_total _ _ H1 H2).
Defined.

Lemma stream_mode_raises_at_minus_one_witness :
  (session two_policies !! 1%positive = Some two_policies
   ∧ two_policies ≠ [] ∧ "stream" ≠ "Enter PV(TNB) directly"
   ∧ 1 + num (-1) = 0)
  ∧ (compute_policy_scores no_parse insertion_sort 1%positive (num (-1)) "stream"
       (session two_policies)).1
    = Raise ZeroDivisionError.
Proof.
  pose proof (session_lookup two_policies) as H1.
  assert (two_policies ≠ []) as H2 by done.
  assert ("stream" ≠ "Enter PV(TNB) directly") as H3 by done.
  assert (1 + num (-1) = 0) as H4 by by_evaluation.
  split; [done|].
  exact (stream_mode_raises_at_minus_one no_parse insertion_sort _ _ _ _ _
           H1 H2 H3 H4).
Defined.


Lemma scores_read_only_their_mode_columns_witness :
  (session two_policies !! 1%positive = Some two_policies
   ∧ session two_policies_other_benefits !! 1%positive
     = Some two_policies_other_benefits
   ∧ Forall2 (reads_same "Enter PV(TNB) directly") two_policies
       two_policies_other_benefits
   ∧ two_policies ≠ two_policies_other_benefits)
  ∧ ∃ scores w w',
      (compute_policy_scores no_parse insertion_sort 1%positive 0
         "Enter PV(TNB) directly" (session two_policies)).1 = Ok (scores, w)
      ∧ (compute_policy_scores no_parse insertion_sort 1%positive 1
           "Enter PV(TNB) directly" (session two_policies_other_benefits)).1
        = Ok (scores, w').
Proof.
  pose proof (session_lookup two_policies) as H1.
  pose proof (session_lookup two_policies_other_benefits) as H2.
  assert (Forall2 (reads_same "Enter PV(TNB) directly") two_policies
            two_policies_other_benefits) as H3
    by (repeat constructor).
  assert (two_policies ≠ two_policies_other_benefits) as H4 by by_evaluation.
  split; [done|].
  exact (scores_read_only_their_mode_columns no_parse insertion_sort
           _ _ _ _ _ _ 0 1 "Enter PV(TNB) directly" H1 H2 H3 (or_introl eq_refl)).
Defined.

Lemma scores_conserve_totals_witness :
  session text_in_prob !! 1%positive = Some text_in_prob
  ∧ ∃ scores w work,
      compute_policy_scores no_parse insertion_sort 1%positive 0 "Enter PV(TNB) directly"
        (session text_in_prob)
      = (Ok (scores, w), <[w := work]> (session text_in_prob))
      ∧ skipna_sum (Prob_Sum <$> scores)
        = skipna_sum ((fun row => coerce no_parse (Prob row)) <$> text_in_prob)
      ∧ skipna_sum (PV_ETNB <$> scores)
        = skipna_sum (cell cWeighted_PV_TNB <$> work).
Proof.
  pose proof (session_lookup text_in_prob) as H1.
  split; [done|].
  exact (scores_conserve_totals no_parse insertion_sort _ _ _ 0
           "Enter PV(TNB) directly" H1 (or_introl eq_refl)).
Defined.

Lemma higher_pv_ranks_first_witness :
  session weighted_policies !! 1%positive = Some weighted_policies
  ∧ ∃ scores w σ',
      compute_policy_scores no_parse insertion_sort 1%positive 0
        "Enter PV(TNB) directly" (session weighted_policies)
      = (Ok (scores, w), σ')
      ∧ ∀ s s', s ∈ scores → s' ∈ scores →
          ∃ x y, PV_ETNB s = Float x ∧ PV_ETNB s' = Float y
            ∧ (y < x → (Rank s < Rank s')%nat)
            ∧ ((Rank s < Rank s')%nat → y ≤ x).
Proof.
  pose proof (session_lookup weighted_policies) as H1.
  split; [done|].
  exact (higher_pv_ranks_first no_parse insertion_sort _ _ _ 0
           "Enter PV(TNB) directly" H1 (or_introl eq_refl)).
Defined.

Lemma recommended_policy_is_best_witness :
  (session two_policies !! 1%positive = Some two_policies ∧ two_policies ≠ [])
  ∧ ∃ scores w σ' best,
      compute_policy_scores no_parse insertion_sort 1%positive 0 "Enter PV(TNB) directly"
        (session two_policies)
      = (Ok (scores, w), σ')
      ∧ recommended_policy scores = Ok (score_Policy best, PV_ETNB best)
      ∧ best ∈ scores
      ∧ score_Policy best ∈ Policy <$> two_policies
      ∧ Rank best = 1%nat
      ∧ ∀ s, s ∈ scores → pv_ge best s.
Proof.
  pose proof (session_lookup two_policies) as H1.
  assert (two_policies ≠ []) as H2 by done.
  split; [done|].
  exact (recommended_policy_is_best no_parse insertion_sort _ _ _ 0
           "Enter PV(TNB) directly" H1 H2 (or_introl eq_refl)).
Defined.

Lemma pv_calculator_shows_discounted_sum_witness :
  0 ≤ frac 7 100
  ∧ pv_calculator (num 100) (num 100) (num 100) (num 100) (frac 7 100)
    = Ok (Float (num 100 + num 100 / (1 + frac 7 100)
                 + num 100 / (1 + frac 7 100) ^ 2
                 + num 100 / (1 + frac 7 100) ^ 3)).
Proof.
  assert (0 ≤ frac 7 100) as H by by_evaluation.
  split; [done|]. exact (pv_calculator_shows_discounted_sum _ _ _ _ _ H).
Defined.

Lemma no_discounting_splits_evenly_witness :
  0 < frac 2 5
  ∧ let half := num 20 / 2 in
    let P := num 8 - frac 2 5 * half in
    shown (depletable_resource_tab (num 8) (frac 2 5) (num 2) 0 (num 20)
             blank).2
    = [st_write "### Solution"; st_metric "q1*" half; st_metric "q2*" half;
       st_write_prices P P; st_caption_check (P - num 2) (P - num 2)].
Proof.
  assert (0 < frac 2 5) as H by by_evaluation.
  split; [done|].
  exact (no_discounting_splits_evenly (num 8) (frac 2 5) (num 2) (num 20) H).
Defined.
